(** * version_tracker: the macOS catalog scraper and its version table

    A shallow embedding of the tracker package at the revision in which
    [VersionsInfo.LatestVersions] is a [map[string]*version.Version] guarded
    by [Tracker.mtx]:
    - [src/tracker/osx_scraper.go], lines 1-367 (the scraper);
    - [src/unnamed/part_001] (the [tracker.go] this scraper compiles
      against: it declares [mtx], [ReadVersions] and the map of versions).
    An older revision of both files is kept beside them
    ([src/tracker/osx_scraper.go] from line 369 on, [src/tracker/tracker.go]);
    module [Legacy] at the end embeds the two functions in which it differs
    on a point the properties are about.

    Conventions.
    - A Go result pair [(x, err)] is a Rocq pair whose second component is an
      [option error], [None] being Go's [nil]; where the first component is a
      pointer that is [nil] exactly when [err] is not, the pair is a sum
      ([inl x] or [inr err]).
    - The packages the program calls ([regexp], [plist], [net/http], [time],
      [go-version]) are gathered in a record [Env] of functions; every
      definition of the scraper is parameterised by it.
    - Effects are threaded through a [World]: the trace of requests, of
      operations on response bodies and on the ticker, and the number of
      clock readings taken.
    - A Go [panic] is the [Panic] outcome.
    - Calls to the logger are left out: they do not influence control flow or
      the table.
    - [ScrapeForMacVersions] starts one goroutine per catalog and waits for
      all of them; [MacCatalogs] has one entry, so the table has one writer
      at a time and [Lock]/[Unlock] of [mtx] are not represented. *)

From Stdlib Require Import ZArith Lia Permutation.
From stdpp Require Import base option list strings gmap.

Local Open Scope string_scope.

(** ** Versions *)

Module version.

Local Open Scope Z_scope.

(** Modelled from the spec: the [github.com/hashicorp/go-version] package is
    a dependency and not part of the sources.  Section 3 of the
    specification describes a version as an ordered triple (major, minor,
    patch) under a total order that compares the components numerically. *)
Record Version : Type := mkVersion { major : Z; minor : Z; patch : Z }.

#[global] Instance Version_eq_dec : EqDecision Version.
Proof. solve_decision. Defined.

(** [v.Compare(o)]: -1, 0 or 1. *)
Definition Compare (v o : Version) : Z :=
  match major v ?= major o with
  | Lt => -1
  | Gt => 1
  | Eq =>
      match minor v ?= minor o with
      | Lt => -1
      | Gt => 1
      | Eq =>
          match patch v ?= patch o with
          | Lt => -1
          | Gt => 1
          | Eq => 0
          end
      end
  end.

(** [v.GreaterThan(o)] is [v.Compare(o) > 0]. *)
Definition GreaterThan (v o : Version) : bool := 0 <? Compare v o.

(** [v.LessThan(o)] is [v.Compare(o) < 0]. *)
Definition LessThan (v o : Version) : bool := Compare v o <? 0.

(** The lexicographic order the two tests decide. *)
Definition lt (o v : Version) : Prop :=
  major o < major v
  \/ (major o = major v
      /\ (minor o < minor v \/ (minor o = minor v /\ patch o < patch v))).

(** [le o v]: [v] is not below [o]. *)
Definition le (o v : Version) : Prop := LessThan v o = false.

(** The greater of two versions, keeping the first on a tie. *)
Definition max (a b : Version) : Version := if GreaterThan b a then b else a.

End version.

Import version.

(** ** Data *)

(** A [time.Time] instant; [time.Time{}] is [zeroTime]. *)
Definition Time : Type := Z.
Definition zeroTime : Time := 0%Z.

(** A Go [error], by its message. *)
Definition error : Type := string.

(** The outcome of a call that may panic. *)
Inductive Go (A : Type) : Type :=
| Return (a : A)
| Panic (msg : string).
Arguments Return {A} a.
Arguments Panic {A} msg.

(** What [plist.Unmarshal] stores in an [interface{}]: a dictionary is a
    [map[string]interface{}].  A dictionary is listed in the order in which
    [range] visits it; Go leaves that order unspecified, so nothing below
    depends on it. *)
#[local] Unset Elimination Schemes.
Inductive PlistValue : Type :=
| PString (s : string)
| PInteger (n : Z)
| PBoolean (b : bool)
| PData (d : string)
| PDate (t : Time)
| PArray (items : list PlistValue)
| PDict (entries : list (string * PlistValue)).
#[local] Set Elimination Schemes.

(** [m[key]] on a [map[string]interface{}]: [None] is the nil interface. *)
Fixpoint mapIndex (entries : list (string * PlistValue)) (key : string)
  : option PlistValue :=
  match entries with
  | [] => None
  | (k, v) :: rest => if String.eqb k key then Some v else mapIndex rest key
  end.

(** The type assertion [x.(map[string]interface{})] in its comma-ok form. *)
Definition assertMap (x : option PlistValue) : option (list (string * PlistValue)) :=
  match x with
  | Some (PDict entries) => Some entries
  | _ => None
  end.

(** The type assertion [x.(string)] in its comma-ok form. *)
Definition assertString (x : option PlistValue) : option string :=
  match x with
  | Some (PString s) => Some s
  | _ => None
  end.

(** An [http.Request]: method, URL and header. *)
Record Request : Type := mkRequest {
  Method : string;
  URL : string;
  Header : gmap string string
}.

(** An [http.Response]: the status code and what reading [Body] to its end
    yields, the bytes and the read error if any. *)
Record Response : Type := mkResponse {
  StatusCode : Z;
  Body : string * option error
}.

(** What the program does to the outside world. *)
Inductive Event : Type :=
| EvDo (req : Request)          (* client.Do(req) *)
| EvReadAll (resp : Response)   (* ioutil.ReadAll(resp.Body) *)
| EvClose (resp : Response)     (* resp.Body.Close() *)
| EvNewTicker (d : Z)           (* time.NewTicker(d), [d] in nanoseconds *)
| EvTickerStop.                 (* timer.Stop() *)

Record World : Type := mkWorld {
  trace : list Event;   (* oldest first *)
  ticks : nat           (* clock readings stored so far *)
}.

Definition emit (e : Event) (w : World) : World :=
  {| trace := trace w ++ [e]; ticks := ticks w |}.

(** [part_001], lines 19-22: the table entry of one operating system.  A
    nil map and an empty map are both [∅]: they read alike, and the only map
    written to is one that [updateOSVersionsMap] has made non-nil (lines
    287-289; [MakeTracker] allocates every map, so that guard never fires on
    a tracker it built). *)
Record VersionsInfo : Type := mkVersionsInfo {
  LatestVersions : gmap string Version;
  LastModified : Time
}.

(** [part_001], lines 24-29: the tracker; [wg] and [mtx] carry no data. *)
Record Tracker : Type := mkTracker {
  interval : Z;
  osVersionsMap : gmap string VersionsInfo
}.

Definition OSTypeMac : string := "macOS".
Definition OSTypeWindows : string := "windows".
Definition OSTypeLinux : string := "linux".

(** The packages the program calls.  The answer to a request depends on the
    request alone; the clock is the sequence of the readings the program
    stores. *)
Record Env : Type := mkEnv {
  (* [FindStringSubmatch] of the three compiled expressions: the whole match
     followed by its groups, or the empty slice. *)
  TitleRegex : string -> list string;
  DiscardRegex : string -> list string;
  VersionRegex : string -> list string;
  (* [version.NewVersion] *)
  NewVersion : string -> Version + error;
  (* [plist.Unmarshal] into an [interface{}] *)
  Unmarshal : string -> PlistValue + error;
  (* the error of [http.NewRequest(method, url, nil)], if any *)
  NewRequest : string -> string -> option error;
  (* [http.DefaultClient.Do] *)
  Do : Request -> Response + error;
  (* [t.Format("Mon, 2 Jan 2006 15:04:05 GMT")] *)
  Format : Time -> string;
  (* the successive readings of [time.Now()] that the program stores *)
  Now : nat -> Time
}.

(** ** Effects *)

Definition M (A : Type) : Type := World -> A * World.

Definition ret {A} (a : A) : M A := fun w => (a, w).

Definition bind {A B} (c : M A) (k : A -> M B) : M B :=
  fun w => let (a, w') := c w in k a w'.

Notation "'let*' x ':=' c 'in' k" := (bind c (fun x => k))
  (at level 10, x pattern, c at level 100, k at level 200).

(** Sequencing of calls that may panic: a panic ends the run. *)
Definition bindGo {A B} (c : M (Go A)) (k : A -> M (Go B)) : M (Go B) :=
  let* out := c in
  match out with
  | Return a => k a
  | Panic msg => ret (Panic msg)
  end.

Notation "'let+' x ':=' c 'in' k" := (bindGo c (fun x => k))
  (at level 10, x pattern, c at level 100, k at level 200).

(** ** The scraper ([tracker/osx_scraper.go]) and the tracker ([tracker/tracker.go]) *)

Definition catalogURL : string := "https://swscan.apple.com/content/catalogs/others/".

(** The one catalog that is not commented out. *)
Definition MacCatalogs : list (string * string) :=
  [("10.13",
    "index-10.13-10.12-10.11-10.10-10.9-mountainlion-lion-snowleopard-leopard.merged-1.sucatalog")].

Definition version1011 : string := "10.11.0".
Definition version1012 : string := "10.12.0".
Definition version1013 : string := "10.13.0".

Definition versionNameElCapitan : string := "ElCapitan".
Definition versionNameSierra : string := "Sierra".
Definition versionNameHighSierra : string := "HighSierra".

(** [init] parses the three constants above with [version.NewVersion] and
    panics if one does not parse; as triples they are the following. *)
Definition elCapitanMajor : Version := mkVersion 10 11 0.
Definition sierraMajor : Version := mkVersion 10 12 0.
Definition highSierraMajor : Version := mkVersion 10 13 0.

(** A Go [int64] holding [z]: two's complement wrap-around. *)
Definition int64 (z : Z) : Z := ((z + 2 ^ 63) mod 2 ^ 64 - 2 ^ 63)%Z.

(** [time.Second], in nanoseconds. *)
Definition time_Second : Z := 1000000000%Z.

(** [time.Duration(interval) * time.Second] *)
Definition tickerPeriod (interval : Z) : Z := int64 (interval * time_Second).

(** What the loop of [updateOSVersionsMapFromProductMap] carries from one
    product to the next: the record [versionsInfo] points to, and [changed]. *)
Definition LoopState : Type := VersionsInfo * bool.

(** What [select] picks in [mainLoop]. *)
Inductive Signal : Type :=
| CtxDone      (* <-ctx.Done() *)
| TimerTick.   (* <-timer.C *)

(** Where [mainLoop] stands when the signals given to it are used up. *)
Inductive LoopStatus : Type :=
| Exited      (* it returned *)
| Selecting.  (* it waits in [select] *)

(** [ioutil.ReadAll(io.Reader(resp.Body))] *)
Definition ioutil_ReadAll (resp : Response) : M (string * option error) :=
  fun w => (Body resp, emit (EvReadAll resp) w).

Section Scraper.

Context (env : Env).

(** [time.Now()], where its value is stored. *)
Definition time_Now : M Time :=
  fun w => (Now env (ticks w), {| trace := trace w; ticks := S (ticks w) |}).

(** [part_001], lines 49-68: [makeRequest] *)
Definition makeRequest (path : string) (lastModified : Time) : M (Response + error) :=
  match NewRequest env "GET" path with
  | Some err => ret (inr err)
  | None =>
      let req :=
        {| Method := "GET"; URL := path;
           Header := {[ "If-Modified-Since" := Format env lastModified ]} |} in
      fun w => (Do env req, emit (EvDo req) w)
  end.

(** [osx_scraper.go], lines 84-146: [getLatestVersion] *)
Definition getLatestVersion (distributionURL : string) (lastModified : Time)
  : M (string * option error) :=
  let* r := makeRequest distributionURL lastModified in
  match r with
  | inr err => ret ("", Some err)
  | inl resp =>
      if negb (StatusCode resp =? 200)%Z then ret ("", None)
      else
        let* (body, err) := ioutil_ReadAll resp in
        match err with
        | Some err => ret ("", Some err)
        | None =>
            let titleMatch := TitleRegex env body in
            if negb (length titleMatch =? 4)%nat then ret ("", None)
            else
              let discardMatch := DiscardRegex env (nth 3 titleMatch "") in
              if (1 <? length discardMatch)%nat then ret ("", None)
              else
                let matches := VersionRegex env body in
                if negb (length matches =? 3)%nat
                then ret ("", Some "Could not find version in distribution")
                else ret (nth 2 matches "", None)
        end
  end.

(** [osx_scraper.go], lines 213-220, 222-230 and 232-239: the block between
    [t.mtx.Lock()] and [t.mtx.Unlock()], written once per branch name. *)
Definition storeLatest (name : string) (v1 : Version) (st : LoopState) : M LoopState :=
  let '(versionsInfo, changed) := st in
  let replace :=
    match LatestVersions versionsInfo !! name with
    | None => true
    | Some latest => GreaterThan v1 latest
    end in
  if replace then
    let* now := time_Now in
    ret ({| LatestVersions := <[name := v1]> (LatestVersions versionsInfo);
            LastModified := now |}, true)
  else ret (versionsInfo, changed).

(** [osx_scraper.go], lines 201-240: the end of the loop body, what is done
    with a parsed version [v1]. *)
Definition trackVersion (v1 : Version) (st : LoopState) : M LoopState :=
  if LessThan v1 elCapitanMajor then ret st
  else if GreaterThan v1 highSierraMajor then storeLatest versionNameHighSierra v1 st
  else if GreaterThan v1 sierraMajor then storeLatest versionNameSierra v1 st
  else if GreaterThan v1 elCapitanMajor then storeLatest versionNameElCapitan v1 st
  else ret st.

(** [osx_scraper.go], lines 162-240: the body of the loop over
    [productsMap]; [continue] returns the state as it is. *)
Definition visitProduct (lastModified : Time) (key : string) (product : PlistValue)
    (st : LoopState) : M LoopState :=
  match assertMap (Some product) with
  | None => ret st
  | Some productInfo =>
      match assertMap (mapIndex productInfo "Distributions") with
      | None => ret st
      | Some distributions =>
          match assertString (mapIndex distributions "English") with
          | None => ret st
          | Some englishDistribution =>
              let* (ver, err) := getLatestVersion englishDistribution lastModified in
              match err with
              | Some _ => ret st
              | None =>
                  if String.eqb ver "" then ret st
                  else
                    match NewVersion env ver with
                    | inr _ => ret st
                    | inl v1 => trackVersion v1 st
                    end
              end
          end
      end
  end.

(** [osx_scraper.go], line 161: [for key, product := range productsMap] *)
Fixpoint rangeProducts (lastModified : Time) (productsMap : list (string * PlistValue))
    (st : LoopState) : M LoopState :=
  match productsMap with
  | [] => ret st
  | (key, product) :: rest =>
      let* st' := visitProduct lastModified key product st in
      rangeProducts lastModified rest st'
  end.

(** [osx_scraper.go], lines 152-244: [updateOSVersionsMapFromProductMap].  The result
    holds the record [versionsInfo] points to when the call returns. *)
Definition updateOSVersionsMapFromProductMap (productCatalogInterface : PlistValue)
    (versionsInfo : VersionsInfo) (lastModified : Time)
  : M (Go (VersionsInfo * (bool * option error))) :=
  match productCatalogInterface with
  | PDict productCatalogMap =>
      match assertMap (mapIndex productCatalogMap "Products") with
      | None => ret (Return (versionsInfo, (false, Some "Could not parse products")))
      | Some productsMap =>
          let* (versionsInfo', changed) :=
            rangeProducts lastModified productsMap (versionsInfo, false) in
          ret (Return (versionsInfo', (changed, None)))
      end
  | _ => ret (Panic "interface conversion: interface {} is not map[string]interface {}")
  end.

(** [osx_scraper.go], lines 249-271: [parseCatalogResponse] *)
Definition parseCatalogResponse (resp : Response) : M (PlistValue + error) :=
  let* (body, err) := ioutil_ReadAll resp in
  match err with
  | Some err => ret (inr err)
  | None =>
      match Unmarshal env body with
      | inr err => ret (inr err)
      | inl parsedCatalog => ret (inl parsedCatalog)
      end
  end.

(** [osx_scraper.go], lines 277-322: [updateOSVersionsMap].  With no entry for
    [OSTypeMac] the pointer [versionsInfo] is nil and reading its field
    panics.  What the callee wrote through the pointer is written back
    to the table. *)
Definition updateOSVersionsMap (url : string) (t : Tracker)
  : M (Go (Tracker * (bool * option error))) :=
  match osVersionsMap t !! OSTypeMac with
  | None => ret (Panic "invalid memory address or nil pointer dereference")
  | Some versionsInfo =>
      let lastModified := LastModified versionsInfo in
      let* r := makeRequest url lastModified in
      match r with
      | inr err => ret (Return (t, (false, Some err)))
      | inl resp =>
          if negb (StatusCode resp =? 200)%Z then ret (Return (t, (false, None)))
          else
            let* parsed := parseCatalogResponse resp in
            match parsed with
            | inr err => ret (Return (t, (false, Some err)))
            | inl productMap =>
                let+ (versionsInfo', res) :=
                  updateOSVersionsMapFromProductMap productMap versionsInfo lastModified in
                ret (Return ({| interval := interval t;
                                osVersionsMap :=
                                  <[OSTypeMac := versionsInfo']> (osVersionsMap t) |},
                             res))
            end
      end
  end.

(** [osx_scraper.go], lines 327-352: [scrapeForMacVersions] *)
Definition scrapeForMacVersions (url : string) (t : Tracker)
  : M (Go (Tracker * option error)) :=
  let+ (t', (updated, err)) := updateOSVersionsMap url t in
  ret (Return (t', err)).

(** [osx_scraper.go], lines 354-367: [ScrapeForMacVersions], one goroutine per catalog,
    all awaited; the result of each is dropped.  With the single entry of
    [MacCatalogs] the goroutines are one, so they run in sequence here. *)
Fixpoint scrapeCatalogs (catalogs : list (string * string)) (t : Tracker)
  : M (Go Tracker) :=
  match catalogs with
  | [] => ret (Return t)
  | (_, url) :: rest =>
      let+ (t', _) := scrapeForMacVersions (catalogURL ++ url) t in
      scrapeCatalogs rest t'
  end.

Definition ScrapeForMacVersions (t : Tracker) : M (Go Tracker) :=
  scrapeCatalogs MacCatalogs t.

(** [part_001], lines 78-92: the [for { select { ... } }] of [mainLoop], run
    on the signals that [select] picks, in order. *)
Fixpoint selectLoop (signals : list Signal) (t : Tracker)
  : M (Go (Tracker * LoopStatus)) :=
  match signals with
  | [] => ret (Return (t, Selecting))
  | CtxDone :: _ => fun w => (Return (t, Exited), emit EvTickerStop w)
  | TimerTick :: rest =>
      let+ t' := ScrapeForMacVersions t in
      selectLoop rest t'
  end.

(** [part_001], lines 70-93: [mainLoop].  [time.NewTicker] panics when its
    duration is not positive. *)
Definition mainLoop (signals : list Signal) (t : Tracker)
  : M (Go (Tracker * LoopStatus)) :=
  let+ t' := ScrapeForMacVersions t in
  let d := tickerPeriod (interval t') in
  if (d <=? 0)%Z then ret (Panic "non-positive interval for NewTicker")
  else
    let* _ := (fun w => (tt, emit (EvNewTicker d) w)) in
    selectLoop signals t'.

(** [part_001], lines 35-40: [Start] *)
Definition Start (signals : list Signal) (t : Tracker) : M (Go (Tracker * LoopStatus)) :=
  mainLoop signals t.

End Scraper.

(** [part_001], lines 95-116: [MakeTracker] *)
Definition MakeTracker (interval : Z) : Tracker :=
  let empty := {| LatestVersions := ∅; LastModified := zeroTime |} in
  {| interval := interval;
     osVersionsMap :=
       <[OSTypeLinux := empty]> (<[OSTypeWindows := empty]> (<[OSTypeMac := empty]> ∅)) |}.

(** [part_001], lines 42-47: [ReadVersions]; [None] is the nil pointer. *)
Definition ReadVersions (t : Tracker) (os : string) : option VersionsInfo :=
  osVersionsMap t !! os.

(** ** The older revision *)

Module Legacy.

(** [osx_scraper.go], lines 403-424: the typed catalog.  A nil pointer is
    [None]. *)
Record DistributionMap : Type := mkDistributionMap {
  EnglishDistribution : string
}.

Record Product : Type := mkProduct {
  Distributions : option DistributionMap
}.

Record ProductMap : Type := mkProductMap {
  Yosemite : option Product;
  ElCapitan : option Product;
  Sierra : option Product;
  HighSierra : option Product
}.

(** The table entry this revision of the scraper writes to
    ([versionsInfo.LatestVersions[latestVersion] = true], line 543): a set of
    version strings as a [map[string]bool]. *)
Record VersionsInfo : Type := mkVersionsInfo {
  LatestVersions : gmap string bool;
  LastModified : Time
}.

(** The distribution URL of a product, when the three tests of lines 480,
    495, 510 and 525 pass. *)
Definition distributionOf (product : option Product) : option string :=
  match product with
  | Some {| Distributions := Some {| EnglishDistribution := url |} |} =>
      if String.eqb url "" then None else Some url
  | _ => None
  end.

Section Scraper.

Context (env : Env).

(** [osx_scraper.go], lines 429-471: [getLatestVersion], without the tests
    on the title. *)
Definition getLatestVersion (distributionURL : string) (lastModified : Time)
  : M (string * option error) :=
  let* r := makeRequest env distributionURL lastModified in
  match r with
  | inr err => ret ("", Some err)
  | inl resp =>
      if negb (StatusCode resp =? 200)%Z then ret ("", None)
      else
        let* (body, err) := ioutil_ReadAll resp in
        match err with
        | Some err => ret ("", Some err)
        | None =>
            let matches := VersionRegex env body in
            if negb (length matches =? 3)%nat
            then ret ("", Some "Could not find version in distribution")
            else ret (nth 2 matches "", None)
        end
  end.

(** One of the four blocks of lines 480-538: the version of a product is
    appended to [latestVersions], and an error ends the function. *)
Definition collect (product : option Product) (lastModified : Time)
    (latestVersions : list string) : M (list string + error) :=
  match distributionOf product with
  | None => ret (inl latestVersions)
  | Some url =>
      let* (ver, err) := getLatestVersion url lastModified in
      match err with
      | Some err => ret (inr err)
      | None =>
          if String.eqb ver "" then ret (inl latestVersions)
          else ret (inl (latestVersions ++ [ver])%list)
      end
  end.

(** Lines 540-547: the loop over [latestVersions]. *)
Fixpoint record (latestVersions : list string) (st : VersionsInfo * bool)
  : M (VersionsInfo * bool) :=
  match latestVersions with
  | [] => ret st
  | latestVersion :: rest =>
      if String.eqb latestVersion "" then record rest st
      else
        let* now := time_Now env in
        record rest
          ({| LatestVersions := <[latestVersion := true]> (LatestVersions (fst st));
              LastModified := now |}, true)
  end.

(** [osx_scraper.go], lines 477-549: [updateOSVersionsMapFromProductMap].
    A nil [productMap] panics at its first field access. *)
Definition updateOSVersionsMapFromProductMap (productMap : option ProductMap)
    (versionsInfo : VersionsInfo) (lastModified : Time)
  : M (Go (VersionsInfo * (bool * option error))) :=
  match productMap with
  | None => ret (Panic "invalid memory address or nil pointer dereference")
  | Some productMap =>
      let* r := collect (HighSierra productMap) lastModified [] in
      match r with
      | inr err => ret (Return (versionsInfo, (false, Some err)))
      | inl latestVersions =>
          let* r := collect (Sierra productMap) lastModified latestVersions in
          match r with
          | inr err => ret (Return (versionsInfo, (false, Some err)))
          | inl latestVersions =>
              let* r := collect (ElCapitan productMap) lastModified latestVersions in
              match r with
              | inr err => ret (Return (versionsInfo, (false, Some err)))
              | inl latestVersions =>
                  let* r := collect (Yosemite productMap) lastModified latestVersions in
                  match r with
                  | inr err => ret (Return (versionsInfo, (false, Some err)))
                  | inl latestVersions =>
                      let* (versionsInfo', changed) :=
                        record latestVersions (versionsInfo, false) in
                      ret (Return (versionsInfo', (changed, None)))
                  end
              end
          end
      end
  end.

End Scraper.

Section Loop.

(** [src/tracker/tracker.go] calls a [ScrapeForMacVersions] that works on a
    table of [sort.StringSlice]; that scraper is not among the sources and is
    the parameter [scrape] here, on any type [T] of tracker. *)
Context {T : Type} (scrape : T -> M (Go T)).

Fixpoint selectLoop (signals : list Signal) (t : T) : M (Go (T * LoopStatus)) :=
  match signals with
  | [] => ret (Return (t, Selecting))
  | CtxDone :: _ => fun w => (Return (t, Exited), emit EvTickerStop w)
  | TimerTick :: rest =>
      let+ t' := scrape t in
      selectLoop rest t'
  end.

(** [src/tracker/tracker.go], lines 78-96: [mainLoop]. *)
Definition mainLoop (interval : Z) (signals : list Signal) (t : T)
  : M (Go (T * LoopStatus)) :=
  let d := tickerPeriod interval in
  if (d <=? 0)%Z then ret (Panic "non-positive interval for NewTicker")
  else
    let* _ := (fun w => (tt, emit (EvNewTicker d) w)) in
    selectLoop signals t.

End Loop.

(** [src/tracker/tracker.go], lines 34-43: the loop of [equal] from index
    [i] on, over what is left of [a].  Indexing [b] out of range panics. *)
Fixpoint equalFrom (i : nat) (a b : list string) : Go bool :=
  match a with
  | [] => Return true
  | val :: rest =>
      match b !! i with
      | None => Panic "index out of range"
      | Some x => if negb (String.eqb x val) then Return false else equalFrom (S i) rest b
      end
  end.

(** [src/tracker/tracker.go], lines 32-44: [equal] *)
Definition equal (a b : list string) : Go bool :=
  if negb (length a =? length b)%nat then Return false else equalFrom 0 a b.

End Legacy.

(** ** Notions used to state the properties *)

Section Notions.

Context (env : Env).

(** The first part of the loop body: the version a product yields, if it
    yields one. *)
Definition extractVersion (lastModified : Time) (product : PlistValue)
  : M (option Version) :=
  match assertMap (Some product) with
  | None => ret None
  | Some productInfo =>
      match assertMap (mapIndex productInfo "Distributions") with
      | None => ret None
      | Some distributions =>
          match assertString (mapIndex distributions "English") with
          | None => ret None
          | Some englishDistribution =>
              let* (ver, err) := getLatestVersion env englishDistribution lastModified in
              match err with
              | Some _ => ret None
              | None =>
                  if String.eqb ver "" then ret None
                  else
                    match NewVersion env ver with
                    | inr _ => ret None
                    | inl v1 => ret (Some v1)
                    end
              end
          end
      end
  end.

(** The same as a value: the world it is run in makes no difference to it
    (lemma [extractVersion_run]). *)
Definition branchVersion (lastModified : Time) (product : PlistValue) : option Version :=
  fst (extractVersion lastModified product (mkWorld [] 0)).

(** The versions the products of a catalog yield, in the order of the
    visit. *)
Definition branchVersions (lastModified : Time) (productsMap : list (string * PlistValue))
  : list Version :=
  omap (fun entry => branchVersion lastModified (snd entry)) productsMap.

(** A product whose distribution is requested and whose request, read,
    version field or version syntax is in error. *)
Definition branchFails (lastModified : Time) (product : PlistValue) : Prop :=
  exists productInfo distributions englishDistribution,
    assertMap (Some product) = Some productInfo
    /\ assertMap (mapIndex productInfo "Distributions") = Some distributions
    /\ assertString (mapIndex distributions "English") = Some englishDistribution
    /\ forall w,
         let (ver, err) := fst (getLatestVersion env englishDistribution lastModified w) in
         match err with
         | Some _ => True
         | None => ver <> "" /\ exists e, NewVersion env ver = inr e
         end.

(** A run of merges for one branch. *)
Fixpoint storeLatestAll (name : string) (vs : list Version) (st : LoopState)
  : M LoopState :=
  match vs with
  | [] => ret st
  | v :: rest =>
      let* st' := storeLatest env name v st in
      storeLatestAll name rest st'
  end.

(** A run of parsed versions through the end of the loop body. *)
Fixpoint trackAll (vs : list Version) (st : LoopState) : M LoopState :=
  match vs with
  | [] => ret st
  | v :: rest =>
      let* st' := trackVersion env v st in
      trackAll rest st'
  end.

(** [n] scrape cycles in a row. *)
Fixpoint scrapeTimes (n : nat) (t : Tracker) : M (Go Tracker) :=
  match n with
  | O => ret (Return t)
  | S n' =>
      let+ t' := ScrapeForMacVersions env t in
      scrapeTimes n' t'
  end.

End Notions.

(** The request [makeRequest] sends for [path] and [lastModified]. *)
Definition conditionalGet (env : Env) (path : string) (lastModified : Time) : Request :=
  {| Method := "GET"; URL := path;
     Header := {[ "If-Modified-Since" := Format env lastModified ]} |}.

(** The branch the loop body files a parsed version under, if any. *)
Definition branchOf (v1 : Version) : option string :=
  if LessThan v1 elCapitanMajor then None
  else if GreaterThan v1 highSierraMajor then Some versionNameHighSierra
  else if GreaterThan v1 sierraMajor then Some versionNameSierra
  else if GreaterThan v1 elCapitanMajor then Some versionNameElCapitan
  else None.

(** Of the versions [vs], those the loop body files under [name]. *)
Definition filed (name : string) (vs : list Version) : list Version :=
  filter (fun v => branchOf v = Some name) vs.

(** No branch of [m'] is below what it is in [m], and none is lost. *)
Definition versions_le (m m' : gmap string Version) : Prop :=
  forall name o, m !! name = Some o -> exists n, m' !! name = Some n /\ version.le o n.

(** The same, for every entry of the tracker's table. *)
Definition table_le (t t' : Tracker) : Prop :=
  forall os versionsInfo,
    osVersionsMap t !! os = Some versionsInfo ->
    exists versionsInfo',
      osVersionsMap t' !! os = Some versionsInfo'
      /\ versions_le (LatestVersions versionsInfo) (LatestVersions versionsInfo').

(** [m] is the greatest of [candidates], or nothing when there are none. *)
Definition greatest (candidates : list Version) (m : option Version) : Prop :=
  match m with
  | None => candidates = []
  | Some x => x ∈ candidates /\ forall y, y ∈ candidates -> version.le y x
  end.

(** What a merge of [v] leaves in an entry that held [stored]. *)
Definition merged (stored : option Version) (v : Version) : option Version :=
  match stored with
  | None => Some v
  | Some latest => Some (version.max latest v)
  end.

Definition isClose (e : Event) : bool :=
  match e with
  | EvClose _ => true
  | _ => false
  end.

(** A computation that only appends events, none of them a close, leaves
    the clock alone, and whose result does not depend on the world. *)
Definition quiet {A} (c : M A) : Prop :=
  exists a es,
    Forall (fun e => isClose e = false) es
    /\ forall w, c w = (a, mkWorld (trace w ++ es) (ticks w)).

(** A computation that only appends events, none of them a close, and whose
    result depends on the world through the clock alone. *)
Definition tracing {A} (c : M A) : Prop :=
  forall n, exists a es n',
    Forall (fun e => isClose e = false) es
    /\ forall tr, c (mkWorld tr n) = (a, mkWorld (tr ++ es) n').

(** ** Further notions *)

(** The URL of the English distribution of a product, when the three type
    assertions of the loop body succeed. *)
Definition distributionURL (product : PlistValue) : option string :=
  match assertMap (Some product) with
  | None => None
  | Some productInfo =>
      match assertMap (mapIndex productInfo "Distributions") with
      | None => None
      | Some distributions => assertString (mapIndex distributions "English")
      end
  end.

(** [n] is above [o]: an entry that was absent or strictly smaller. *)
Definition above (o n : option Version) : Prop :=
  match o, n with
  | None, Some _ => True
  | Some a, Some b => version.lt a b
  | _, None => False
  end.

(** Where a pass that began with the record [versionsInfo0] and the clock at
    [n0] stands: no branch is below what it was, and [changed] is set exactly
    when a branch has risen, the clock has been read, and [LastModified] is
    its latest reading. *)
Definition passState (env : Env) (versionsInfo0 : VersionsInfo) (n0 : nat)
    (st : LoopState) (w : World) : Prop :=
  versions_le (LatestVersions versionsInfo0) (LatestVersions (fst st))
  /\ if snd st
     then (exists name,
              above (LatestVersions versionsInfo0 !! name) (LatestVersions (fst st) !! name))
          /\ n0 < ticks w
          /\ LastModified (fst st) = Now env (pred (ticks w))
     else fst st = versionsInfo0 /\ ticks w = n0.

(** Every version of the table is stored under the branch the loop body
    files it under. *)
Definition wellFiled (m : gmap string Version) : Prop :=
  forall name v, m !! name = Some v -> branchOf v = Some name.

(** An event of a cycle whose conditional requests carry [lastModified]: a
    GET with that one header, or the read of a body that came with status
    200. *)
Definition cycleEvent (env : Env) (lastModified : Time) (e : Event) : Prop :=
  match e with
  | EvDo req =>
      Method req = "GET"
      /\ Header req = {[ "If-Modified-Since" := Format env lastModified ]}
  | EvReadAll resp => StatusCode resp = 200%Z
  | _ => False
  end.

(** The run of [c] from [w] appends at most [n] events, all of them in [P]. *)
Definition appends {A} (P : Event -> Prop) (n : nat) (c : M A) (w : World) : Prop :=
  exists es,
    trace (snd (c w)) = (trace w ++ es)%list /\ Forall P es /\ length es <= n.

(** The number of products of a decoded catalog. *)
Definition productCount (catalog : PlistValue) : nat :=
  match catalog with
  | PDict entries =>
      match assertMap (mapIndex entries "Products") with
      | Some productsMap => length productsMap
      | None => 0
      end
  | _ => 0
  end.

(** The time [updateOSVersionsMap] sends with its requests (lines 279-285). *)
Definition lastModifiedOf (t : Tracker) : Time :=
  match osVersionsMap t !! OSTypeMac with
  | None => zeroTime
  | Some versionsInfo => LastModified versionsInfo
  end.

(** ** A concrete environment *)

Module Demo.

Definition hsURL : string := "https://swdist.apple.com/091-39211.English.dist".
Definition sierraURL : string := "https://swdist.apple.com/091-22860.English.dist".
Definition yosemiteURL : string := "https://swdist.apple.com/031-30888.English.dist".
Definition staleURL : string := "https://swdist.apple.com/041-00001.English.dist".
Definition downURL : string := "https://swdist.apple.com/unreachable.English.dist".
Definition mainCatalogURL : string :=
  Eval cbv in (catalogURL ++ snd (hd ("", "") MacCatalogs)).

(** Three distribution documents, abbreviated to their title and version
    fields. *)
Definition hsBody : string := "SU_TITLE = macOS 10.13.6 Update; SU_VERS = 10.13.6;".
Definition sierraBody : string := "SU_TITLE = macOS Sierra Update; SU_VERS = 10.12.0;".
Definition yosemiteBody : string := "SU_TITLE = OS X Yosemite; SU_VERS = 10.10.5;".
Definition catalogBody : string := "<plist>catalog</plist>".

Definition product (url : string) : PlistValue :=
  PDict [("Distributions", PDict [("English", PString url)])].

Definition catalog (products : list (string * PlistValue)) : PlistValue :=
  PDict [("CatalogVersion", PInteger 2); ("Products", PDict products)].

Definition products : list (string * PlistValue) :=
  [("091-39211", product hsURL); ("091-22860", product sierraURL);
   ("031-30888", product yosemiteURL)].

(** The submatches the three expressions find in the documents above. *)
Definition title (body : string) : list string :=
  if String.eqb body hsBody then [body; "SU_TITLE"; "macOS 10"; ".13.6 Update"]
  else if String.eqb body sierraBody then [body; "SU_TITLE"; "macOS Sierra"; " Update"]
  else if String.eqb body yosemiteBody then [body; "SU_TITLE"; "OS X"; " Yosemite"]
  else [].

Definition discard (rest : string) : list string := [].

Definition vers (body : string) : list string :=
  if String.eqb body hsBody then [body; "SU_VERS"; "10.13.6"]
  else if String.eqb body sierraBody then [body; "SU_VERS"; "10.12.0"]
  else if String.eqb body yosemiteBody then [body; "SU_VERS"; "10.10.5"]
  else [].

Definition newVersion (s : string) : Version + error :=
  if String.eqb s "10.13.6" then inl (mkVersion 10 13 6)
  else if String.eqb s "10.12.0" then inl (mkVersion 10 12 0)
  else if String.eqb s "10.10.5" then inl (mkVersion 10 10 5)
  else inr "Malformed version".

Definition unmarshal (body : string) : PlistValue + error :=
  if String.eqb body catalogBody then inl (catalog products)
  else inr "plist: type mismatch".

Definition ok (body : string) : Response + error :=
  inl {| StatusCode := 200; Body := (body, None) |}.

Definition doRequest (req : Request) : Response + error :=
  if String.eqb (URL req) mainCatalogURL then ok catalogBody
  else if String.eqb (URL req) hsURL then ok hsBody
  else if String.eqb (URL req) sierraURL then ok sierraBody
  else if String.eqb (URL req) yosemiteURL then ok yosemiteBody
  else if String.eqb (URL req) downURL then inr "dial tcp: i/o timeout"
  else if String.eqb (URL req) staleURL then inl {| StatusCode := 304; Body := ("", None) |}
  else inl {| StatusCode := 404; Body := ("", None) |}.

Definition env : Env :=
  {| TitleRegex := title;
     DiscardRegex := discard;
     VersionRegex := vers;
     NewVersion := newVersion;
     Unmarshal := unmarshal;
     NewRequest := fun _ _ => None;
     Do := doRequest;
     Format := fun t => "Thu, 1 Jan 1970 00:00:00 GMT";
     Now := fun n => (1000 + Z.of_nat n)%Z |}.

Definition w0 : World := {| trace := []; ticks := 0 |}.

Definition emptyInfo : VersionsInfo :=
  {| LatestVersions := ∅; LastModified := zeroTime |}.

End Demo.

(** ** Facts about the order of versions *)

Module VersionFacts.

Local Open Scope Z_scope.

Lemma GreaterThan_spec v o : GreaterThan v o = true <-> lt o v.
Proof.
  unfold GreaterThan, Compare, lt.
  destruct (Z.compare_spec (major v) (major o));
    destruct (Z.compare_spec (minor v) (minor o));
    destruct (Z.compare_spec (patch v) (patch o));
    rewrite Z.ltb_lt; lia.
Qed.

Lemma LessThan_spec v o : LessThan v o = true <-> lt v o.
Proof.
  unfold LessThan, Compare, lt.
  destruct (Z.compare_spec (major v) (major o));
    destruct (Z.compare_spec (minor v) (minor o));
    destruct (Z.compare_spec (patch v) (patch o));
    rewrite Z.ltb_lt; lia.
Qed.

Lemma LessThan_GreaterThan v o : LessThan v o = GreaterThan o v.
Proof.
  apply eq_true_iff_eq. by rewrite LessThan_spec, GreaterThan_spec.
Qed.

Lemma lt_irrefl v : ~ lt v v.
Proof. unfold lt. lia. Qed.

Lemma lt_trans a b c : lt a b -> lt b c -> lt a c.
Proof. unfold lt. lia. Qed.

Lemma lt_asym a b : lt a b -> ~ lt b a.
Proof. unfold lt. lia. Qed.

Lemma lt_total a b : lt a b \/ a = b \/ lt b a.
Proof.
  destruct a as [a1 a2 a3], b as [b1 b2 b3]. unfold lt. simpl.
  destruct (Z.lt_total a1 b1) as [?|[->|?]]; [lia| |lia].
  destruct (Z.lt_total a2 b2) as [?|[->|?]]; [lia| |lia].
  destruct (Z.lt_total a3 b3) as [?|[->|?]]; [lia| |lia].
  right; left; reflexivity.
Qed.

Lemma GreaterThan_irrefl v : GreaterThan v v = false.
Proof.
  apply not_true_is_false. rewrite GreaterThan_spec. apply lt_irrefl.
Qed.

Lemma le_refl v : le v v.
Proof. unfold le. rewrite LessThan_GreaterThan. apply GreaterThan_irrefl. Qed.

Lemma le_iff o v : le o v <-> ~ lt v o.
Proof.
  unfold le. rewrite <- LessThan_spec. destruct (LessThan v o); split; done.
Qed.

Lemma le_trans a b c : le a b -> le b c -> le a c.
Proof.
  rewrite !le_iff. intros Hab Hbc Hca.
  destruct (lt_total a b) as [Hlt|[->|Hlt]]; [|done|done].
  destruct (lt_total b c) as [Hlt'|[->|Hlt']]; [|done|done].
  eapply lt_asym; [exact Hca|]. eapply lt_trans; eassumption.
Qed.

Lemma lt_le o v : lt o v -> le o v.
Proof. rewrite le_iff. apply lt_asym. Qed.

Lemma not_GreaterThan_le v o : GreaterThan v o = false -> le v o.
Proof. unfold le. by rewrite LessThan_GreaterThan. Qed.

Lemma le_antisym a b : le a b -> le b a -> a = b.
Proof.
  rewrite !le_iff. intros Hba Hab.
  by destruct (lt_total a b) as [?|[?|?]].
Qed.

Lemma max_cases a b : (max a b = a /\ le b a) \/ (max a b = b /\ lt a b).
Proof.
  unfold max. destruct (GreaterThan b a) eqn:Hgt.
  - right. split; [done | by apply GreaterThan_spec].
  - left. split; [done | by apply not_GreaterThan_le].
Qed.

End VersionFacts.

Import VersionFacts.

(** ** Facts about the embedding *)

Lemma versions_le_refl m : versions_le m m.
Proof. intros name o Ho. exists o. split; [done | apply le_refl]. Qed.

Lemma versions_le_trans m1 m2 m3 :
  versions_le m1 m2 -> versions_le m2 m3 -> versions_le m1 m3.
Proof.
  intros H12 H23 name o Ho.
  destruct (H12 name o Ho) as (n & Hn & Hle).
  destruct (H23 name n Hn) as (k & Hk & Hle').
  exists k. split; [done | by eapply le_trans].
Qed.

Section Facts.

Context (env : Env).

(** *** The merge block *)

Lemma storeLatest_keep name v1 versionsInfo changed w latest :
  LatestVersions versionsInfo !! name = Some latest ->
  GreaterThan v1 latest = false ->
  storeLatest env name v1 (versionsInfo, changed) w = ((versionsInfo, changed), w).
Proof. intros Hl Hgt. unfold storeLatest. by rewrite Hl, Hgt. Qed.

Lemma storeLatest_new name v1 versionsInfo changed w :
  LatestVersions versionsInfo !! name = None ->
  storeLatest env name v1 (versionsInfo, changed) w
  = (({| LatestVersions := <[name := v1]> (LatestVersions versionsInfo);
         LastModified := Now env (ticks w) |}, true),
     {| trace := trace w; ticks := S (ticks w) |}).
Proof. intros Hl. unfold storeLatest. by rewrite Hl. Qed.

Lemma storeLatest_replace name v1 versionsInfo changed w latest :
  LatestVersions versionsInfo !! name = Some latest ->
  GreaterThan v1 latest = true ->
  storeLatest env name v1 (versionsInfo, changed) w
  = (({| LatestVersions := <[name := v1]> (LatestVersions versionsInfo);
         LastModified := Now env (ticks w) |}, true),
     {| trace := trace w; ticks := S (ticks w) |}).
Proof. intros Hl Hgt. unfold storeLatest. by rewrite Hl, Hgt. Qed.

(** The three outcomes of a merge, told by the entry it meets. *)
Lemma storeLatest_cases name v1 versionsInfo changed w :
  (exists latest,
      LatestVersions versionsInfo !! name = Some latest
      /\ GreaterThan v1 latest = false
      /\ storeLatest env name v1 (versionsInfo, changed) w = ((versionsInfo, changed), w))
  \/ ((LatestVersions versionsInfo !! name = None
       \/ exists latest, LatestVersions versionsInfo !! name = Some latest
                         /\ GreaterThan v1 latest = true)
      /\ storeLatest env name v1 (versionsInfo, changed) w
         = (({| LatestVersions := <[name := v1]> (LatestVersions versionsInfo);
                LastModified := Now env (ticks w) |}, true),
            {| trace := trace w; ticks := S (ticks w) |})).
Proof.
  destruct (LatestVersions versionsInfo !! name) as [latest|] eqn:Hl.
  - destruct (GreaterThan v1 latest) eqn:Hgt.
    + right. split; [right; eauto | by eapply storeLatest_replace].
    + left. exists latest. eauto using storeLatest_keep.
  - right. split; [by left | by apply storeLatest_new].
Qed.

Lemma insert_versions_le name v1 (m : gmap string Version) :
  (forall o, m !! name = Some o -> version.le o v1) ->
  versions_le m (<[name := v1]> m).
Proof.
  intros Hle other o Ho. destruct (decide (name = other)) as [->|Hne].
  - exists v1. rewrite lookup_insert_eq. split; [done | by apply Hle].
  - exists o. rewrite lookup_insert_ne by done. split; [done | apply le_refl].
Qed.

Lemma storeLatest_mono name v1 st w :
  versions_le (LatestVersions (fst st))
              (LatestVersions (fst (fst (storeLatest env name v1 st w)))).
Proof.
  destruct st as [versionsInfo changed].
  destruct (storeLatest_cases name v1 versionsInfo changed w)
    as [(latest & _ & _ & ->) | [Hwhy ->]]; simpl.
  - apply versions_le_refl.
  - apply insert_versions_le. intros o Ho.
    destruct Hwhy as [Hnone | (latest & Hl & Hgt)]; [congruence|].
    assert (o = latest) as -> by congruence.
    apply lt_le. by apply GreaterThan_spec.
Qed.

Lemma trackVersion_cases v1 st w :
  match branchOf v1 with
  | Some name => trackVersion env v1 st w = storeLatest env name v1 st w
  | None => trackVersion env v1 st w = (st, w)
  end.
Proof.
  unfold branchOf, trackVersion.
  repeat (match goal with |- context [if ?b then _ else _] => destruct b end; try done).
Qed.

Lemma trackVersion_mono v1 st w :
  versions_le (LatestVersions (fst st))
              (LatestVersions (fst (fst (trackVersion env v1 st w)))).
Proof.
  pose proof (trackVersion_cases v1 st w) as H.
  destruct (branchOf v1); rewrite H.
  - apply storeLatest_mono.
  - apply versions_le_refl.
Qed.

(** *** The loop body and the loop *)

Lemma visitProduct_extract lastModified key product st w :
  visitProduct env lastModified key product st w
  = let (found, w') := extractVersion env lastModified product w in
    match found with
    | Some v1 => trackVersion env v1 st w'
    | None => (st, w')
    end.
Proof.
  unfold visitProduct, extractVersion.
  destruct (assertMap (Some product)) as [productInfo|]; [|done].
  destruct (assertMap (mapIndex productInfo "Distributions")) as [distributions|]; [|done].
  destruct (assertString (mapIndex distributions "English")) as [english|]; [|done].
  unfold bind.
  destruct (getLatestVersion env english lastModified w) as [[ver [err|]] w']; [done|].
  destruct (String.eqb ver ""); [done|].
  by destruct (NewVersion env ver).
Qed.

Lemma visitProduct_mono lastModified key product st w :
  versions_le (LatestVersions (fst st))
              (LatestVersions (fst (fst (visitProduct env lastModified key product st w)))).
Proof.
  rewrite visitProduct_extract.
  destruct (extractVersion env lastModified product w) as [[v1|] w'].
  - apply trackVersion_mono.
  - apply versions_le_refl.
Qed.

Lemma rangeProducts_mono lastModified productsMap st w :
  versions_le (LatestVersions (fst st))
              (LatestVersions (fst (fst (rangeProducts env lastModified productsMap st w)))).
Proof.
  revert st w. induction productsMap as [|[key product] rest IH]; intros st w; simpl.
  - apply versions_le_refl.
  - unfold bind.
    pose proof (visitProduct_mono lastModified key product st w) as Hstep.
    destruct (visitProduct env lastModified key product st w) as [st' w'].
    eapply versions_le_trans; [exact Hstep | apply IH].
Qed.

Lemma rangeProducts_app lastModified ps1 ps2 st w :
  rangeProducts env lastModified (ps1 ++ ps2) st w
  = let (st', w') := rangeProducts env lastModified ps1 st w in
    rangeProducts env lastModified ps2 st' w'.
Proof.
  revert st w. induction ps1 as [|[key product] rest IH]; intros st w; simpl.
  - done.
  - unfold bind.
    destruct (visitProduct env lastModified key product st w) as [st' w'].
    apply IH.
Qed.

(** *** One cycle and the polling loop *)

Lemma table_le_refl t : table_le t t.
Proof. intros os vi Hvi. exists vi. split; [done | apply versions_le_refl]. Qed.

Lemma table_le_trans t1 t2 t3 : table_le t1 t2 -> table_le t2 t3 -> table_le t1 t3.
Proof.
  intros H12 H23 os vi Hvi.
  destruct (H12 os vi Hvi) as (vi2 & Hvi2 & Hle).
  destruct (H23 os vi2 Hvi2) as (vi3 & Hvi3 & Hle').
  exists vi3. split; [done | by eapply versions_le_trans].
Qed.

Lemma updateOSVersionsMapFromProductMap_mono catalog versionsInfo lastModified w
    versionsInfo' res w' :
  updateOSVersionsMapFromProductMap env catalog versionsInfo lastModified w
  = (Return (versionsInfo', res), w') ->
  versions_le (LatestVersions versionsInfo) (LatestVersions versionsInfo').
Proof.
  unfold updateOSVersionsMapFromProductMap.
  destruct catalog as [| | | | | |productCatalogMap]; try done.
  destruct (assertMap (mapIndex productCatalogMap "Products")) as [productsMap|].
  - unfold bind, ret.
    pose proof (rangeProducts_mono lastModified productsMap (versionsInfo, false) w) as Hle.
    destruct (rangeProducts env lastModified productsMap (versionsInfo, false) w)
      as [[vi changed] w1].
    intros [= <- _ _]. exact Hle.
  - intros [= <- _ _]. apply versions_le_refl.
Qed.

Lemma updateOSVersionsMap_mono url t w t' res w' :
  updateOSVersionsMap env url t w = (Return (t', res), w') -> table_le t t'.
Proof.
  unfold updateOSVersionsMap.
  destruct (osVersionsMap t !! OSTypeMac) as [versionsInfo|] eqn:Hmac; [|done].
  unfold bindGo, bind, ret.
  destruct (makeRequest env url (LastModified versionsInfo) w) as [[resp|err] w1].
  2: { intros [= <- _ _]. apply table_le_refl. }
  destruct (negb (StatusCode resp =? 200)%Z).
  { intros [= <- _ _]. apply table_le_refl. }
  destruct (parseCatalogResponse env resp w1) as [[productMap|err] w2].
  2: { intros [= <- _ _]. apply table_le_refl. }
  destruct (updateOSVersionsMapFromProductMap env productMap versionsInfo
              (LastModified versionsInfo) w2) as [[[vi' res']|msg] w3] eqn:Hupd; [|done].
  intros [= <- _ _].
  apply updateOSVersionsMapFromProductMap_mono in Hupd.
  intros os vi Hvi. simpl. destruct (decide (OSTypeMac = os)) as [<-|Hne].
  - exists vi'. rewrite lookup_insert_eq. split; [done|].
    by replace vi with versionsInfo by congruence.
  - exists vi. rewrite lookup_insert_ne by done. split; [done | apply versions_le_refl].
Qed.

Lemma scrapeCatalogs_mono catalogs t w t' w' :
  scrapeCatalogs env catalogs t w = (Return t', w') -> table_le t t'.
Proof.
  revert t w. induction catalogs as [|[name url] rest IH]; intros t w; simpl.
  - intros [= <- _]. apply table_le_refl.
  - unfold scrapeForMacVersions, bindGo, bind, ret.
    destruct (updateOSVersionsMap env (catalogURL ++ url) t w)
      as [[[t1 [updated err]]|msg] w1] eqn:Hupd; [|done].
    intros Hrest. eapply table_le_trans.
    + eapply updateOSVersionsMap_mono, Hupd.
    + eapply IH, Hrest.
Qed.

Lemma ScrapeForMacVersions_mono t w t' w' :
  ScrapeForMacVersions env t w = (Return t', w') -> table_le t t'.
Proof. apply scrapeCatalogs_mono. Qed.

Lemma selectLoop_mono signals t w t' status w' :
  selectLoop env signals t w = (Return (t', status), w') -> table_le t t'.
Proof.
  revert t w. induction signals as [|[|] rest IH]; intros t w; simpl.
  - intros [= <- _ _]. apply table_le_refl.
  - intros [= <- _ _]. apply table_le_refl.
  - unfold bindGo, bind, ret.
    destruct (ScrapeForMacVersions env t w) as [[t1|msg] w1] eqn:Hscrape; [|done].
    intros Hrest. eapply table_le_trans.
    + eapply ScrapeForMacVersions_mono, Hscrape.
    + eapply IH, Hrest.
Qed.

Lemma updateOSVersionsMap_interval url t w t' res w' :
  updateOSVersionsMap env url t w = (Return (t', res), w') -> interval t' = interval t.
Proof.
  unfold updateOSVersionsMap.
  destruct (osVersionsMap t !! OSTypeMac) as [versionsInfo|]; [|done].
  unfold bindGo, bind, ret.
  destruct (makeRequest env url (LastModified versionsInfo) w) as [[resp|err] w1];
    [|by intros [= <- _ _]].
  destruct (negb (StatusCode resp =? 200)%Z); [by intros [= <- _ _]|].
  destruct (parseCatalogResponse env resp w1) as [[productMap|err] w2];
    [|by intros [= <- _ _]].
  destruct (updateOSVersionsMapFromProductMap env productMap versionsInfo
              (LastModified versionsInfo) w2) as [[[vi' res']|msg] w3]; [|done].
  by intros [= <- _ _].
Qed.

Lemma scrapeCatalogs_interval catalogs t w t' w' :
  scrapeCatalogs env catalogs t w = (Return t', w') -> interval t' = interval t.
Proof.
  revert t w. induction catalogs as [|[name url] rest IH]; intros t w; simpl.
  - by intros [= <- _].
  - unfold scrapeForMacVersions, bindGo, bind, ret.
    destruct (updateOSVersionsMap env (catalogURL ++ url) t w)
      as [[[t1 [updated err]]|msg] w1] eqn:Hupd; [|done].
    intros Hrest. apply IH in Hrest. apply updateOSVersionsMap_interval in Hupd.
    congruence.
Qed.

Lemma ScrapeForMacVersions_interval t w t' w' :
  ScrapeForMacVersions env t w = (Return t', w') -> interval t' = interval t.
Proof. apply scrapeCatalogs_interval. Qed.

Lemma mainLoop_mono signals t w t' status w' :
  mainLoop env signals t w = (Return (t', status), w') -> table_le t t'.
Proof.
  unfold mainLoop, bindGo, bind, ret.
  destruct (ScrapeForMacVersions env t w) as [[t1|msg] w1] eqn:Hscrape; [|done].
  destruct (tickerPeriod (interval t1) <=? 0)%Z; [done|].
  intros Hrest. eapply table_le_trans.
  - eapply ScrapeForMacVersions_mono, Hscrape.
  - eapply selectLoop_mono, Hrest.
Qed.

(** The table of a tracker built by [MakeTracker] keeps its entry for
    [OSTypeMac] over every run of [mainLoop]. *)
Lemma mainLoop_keeps_mac_entry interval signals w t' status w' :
  mainLoop env signals (MakeTracker interval) w = (Return (t', status), w') ->
  is_Some (osVersionsMap t' !! OSTypeMac).
Proof.
  intros Hrun. apply mainLoop_mono in Hrun.
  destruct (Hrun OSTypeMac {| LatestVersions := ∅; LastModified := zeroTime |})
    as (versionsInfo' & Hentry & _); [done|].
  by exists versionsInfo'.
Qed.

End Facts.

(** ** The greatest of a list of versions *)

Lemma greatest_unique candidates m m' :
  greatest candidates m -> greatest candidates m' -> m = m'.
Proof.
  destruct m as [x|], m' as [y|]; simpl.
  - intros [Hx Hmaxx] [Hy Hmaxy]. f_equal. apply le_antisym; auto.
  - intros [Hx _] ->. by apply elem_of_nil in Hx.
  - intros -> [Hy _]. by apply elem_of_nil in Hy.
  - done.
Qed.

Lemma greatest_perm candidates candidates' m :
  candidates ≡ₚ candidates' -> greatest candidates m -> greatest candidates' m.
Proof.
  intros Hperm. destruct m as [x|]; simpl.
  - intros [Hx Hmax]. split; [by rewrite <- Hperm|].
    intros y Hy. apply Hmax. by rewrite Hperm.
  - intros ->. by apply Permutation_nil_l in Hperm.
Qed.

Lemma greatest_snoc candidates m v :
  greatest candidates m -> greatest (candidates ++ [v]) (merged m v).
Proof.
  destruct m as [x|]; simpl.
  - intros [Hx Hmax]. destruct (max_cases x v) as [[-> Hle]|[-> Hlt]].
    + split; [apply elem_of_app; by left|].
      intros y Hy. apply elem_of_app in Hy as [Hy|Hy]; [by apply Hmax|].
      by apply list_elem_of_singleton in Hy as ->.
    + split; [apply elem_of_app; right; by apply list_elem_of_singleton|].
      intros y Hy. apply elem_of_app in Hy as [Hy|Hy].
      * eapply le_trans; [by apply Hmax | by apply lt_le].
      * apply list_elem_of_singleton in Hy as ->. apply le_refl.
  - intros ->. simpl. split; [by apply list_elem_of_singleton|].
    intros y Hy. apply list_elem_of_singleton in Hy as ->. apply le_refl.
Qed.

Lemma greatest_option_list stored : greatest (option_list stored) stored.
Proof.
  destruct stored as [latest|]; simpl; [|done].
  split; [by apply list_elem_of_singleton|].
  intros y Hy. apply list_elem_of_singleton in Hy as ->. apply le_refl.
Qed.

Lemma greatest_foldl stored vs :
  greatest (option_list stored ++ vs) (foldl merged stored vs).
Proof.
  induction vs as [|v rest IH] using rev_ind.
  - rewrite app_nil_r. apply greatest_option_list.
  - rewrite foldl_app, app_assoc. simpl. by apply greatest_snoc.
Qed.

(** ** Runs of merges *)

Section Merges.

Context (env : Env).

Lemma storeLatest_lookup name v1 st w :
  LatestVersions (fst (fst (storeLatest env name v1 st w))) !! name
  = merged (LatestVersions (fst st) !! name) v1.
Proof.
  destruct st as [versionsInfo changed].
  destruct (storeLatest_cases env name v1 versionsInfo changed w)
    as [(latest & Hl & Hgt & ->) | [Hwhy ->]]; simpl.
  - rewrite Hl. simpl. unfold version.max. by rewrite Hgt.
  - rewrite lookup_insert_eq.
    destruct Hwhy as [-> | (latest & -> & Hgt)]; simpl; [done|].
    unfold version.max. by rewrite Hgt.
Qed.

Lemma storeLatest_other name other v1 st w :
  other <> name ->
  LatestVersions (fst (fst (storeLatest env name v1 st w))) !! other
  = LatestVersions (fst st) !! other.
Proof.
  intros Hne. destruct st as [versionsInfo changed].
  destruct (storeLatest_cases env name v1 versionsInfo changed w)
    as [(latest & _ & _ & ->) | [_ ->]]; simpl; [done|].
  by rewrite lookup_insert_ne.
Qed.

Lemma storeLatestAll_lookup name vs st w :
  LatestVersions (fst (fst (storeLatestAll env name vs st w))) !! name
  = foldl merged (LatestVersions (fst st) !! name) vs.
Proof.
  revert st w. induction vs as [|v rest IH]; intros st w; simpl; [done|].
  unfold bind.
  pose proof (storeLatest_lookup name v st w) as Hstep.
  destruct (storeLatest env name v st w) as [st' w']. simpl in Hstep.
  rewrite IH. by rewrite Hstep.
Qed.

(** Merging a version a second time changes nothing, the clock included. *)
Lemma storeLatest_idempotent name v1 st w :
  let (st', w') := storeLatest env name v1 st w in
  storeLatest env name v1 st' w' = (st', w').
Proof.
  destruct st as [versionsInfo changed].
  destruct (storeLatest_cases env name v1 versionsInfo changed w)
    as [(latest & Hl & Hgt & ->) | [_ ->]].
  - by eapply storeLatest_keep.
  - eapply storeLatest_keep; simpl.
    + apply lookup_insert_eq.
    + apply GreaterThan_irrefl.
Qed.

Lemma trackVersion_lookup v1 st w name :
  LatestVersions (fst (fst (trackVersion env v1 st w))) !! name
  = if decide (branchOf v1 = Some name)
    then merged (LatestVersions (fst st) !! name) v1
    else LatestVersions (fst st) !! name.
Proof.
  pose proof (trackVersion_cases env v1 st w) as Hcases.
  destruct (branchOf v1) as [branch|] eqn:Hbranch; rewrite Hcases.
  - destruct (decide (Some branch = Some name)) as [[= ->]|Hne].
    + apply storeLatest_lookup.
    + apply storeLatest_other. congruence.
  - by destruct (decide (None = Some name)).
Qed.

Lemma trackAll_lookup vs st w name :
  LatestVersions (fst (fst (trackAll env vs st w))) !! name
  = foldl merged (LatestVersions (fst st) !! name) (filed name vs).
Proof.
  revert st w. induction vs as [|v rest IH]; intros st w; simpl; [done|].
  unfold bind.
  pose proof (trackVersion_lookup v st w name) as Hstep.
  destruct (trackVersion env v st w) as [st' w']. simpl in Hstep.
  rewrite IH, Hstep. unfold filed. rewrite filter_cons.
  by destruct (decide (branchOf v = Some name)).
Qed.

(** The table a run of [trackAll] leaves does not depend on the order of the
    versions, nor on the clock. *)
Lemma trackAll_perm vs vs' st w w' :
  vs ≡ₚ vs' ->
  LatestVersions (fst (fst (trackAll env vs st w)))
  = LatestVersions (fst (fst (trackAll env vs' st w'))).
Proof.
  intros Hperm. apply map_eq. intros name. rewrite !trackAll_lookup.
  eapply greatest_unique; [apply greatest_foldl|].
  eapply greatest_perm; [|apply greatest_foldl].
  unfold filed. by rewrite Hperm.
Qed.

End Merges.

(** ** What the program does to the world *)

Lemma quiet_ret {A} (a : A) : quiet (ret a).
Proof.
  exists a, []. split; [constructor|].
  intros [tr n]. unfold ret. simpl. by rewrite app_nil_r.
Qed.

Lemma quiet_bind {A B} (c : M A) (k : A -> M B) :
  quiet c -> (forall a, quiet (k a)) -> quiet (bind c k).
Proof.
  intros (a & es & Hes & Hc) Hk.
  destruct (Hk a) as (b & es' & Hes' & Hka).
  exists b, (es ++ es')%list. split; [by apply Forall_app|].
  intros w. unfold bind. rewrite Hc, Hka. simpl. by rewrite app_assoc.
Qed.

Lemma quiet_emit {A} (a : A) (e : Event) :
  isClose e = false -> quiet (fun w => (a, emit e w)).
Proof.
  intros He. exists a, [e]. split; [by constructor|]. done.
Qed.

Lemma quiet_tracing {A} (c : M A) : quiet c -> tracing c.
Proof.
  intros (a & es & Hes & Hc) n. exists a, es, n. split; [done|].
  intros tr. by rewrite Hc.
Qed.

Lemma tracing_ret {A} (a : A) : tracing (ret a).
Proof. apply quiet_tracing, quiet_ret. Qed.

Lemma tracing_bind {A B} (c : M A) (k : A -> M B) :
  tracing c -> (forall a, tracing (k a)) -> tracing (bind c k).
Proof.
  intros Hc Hk n.
  destruct (Hc n) as (a & es & n1 & Hes & Hrun).
  destruct (Hk a n1) as (b & es' & n2 & Hes' & Hrun').
  exists b, (es ++ es')%list, n2. split; [by apply Forall_app|].
  intros tr. unfold bind. rewrite Hrun, Hrun'. by rewrite app_assoc.
Qed.

Lemma tracing_bindGo {A B} (c : M (Go A)) (k : A -> M (Go B)) :
  tracing c -> (forall a, tracing (k a)) -> tracing (bindGo c k).
Proof.
  intros Hc Hk. apply tracing_bind; [done|].
  intros [a|msg]; [apply Hk | apply tracing_ret].
Qed.

(** A run of a tracing computation, from any world. *)
Lemma tracing_run {A} (c : M A) (w : World) :
  tracing c ->
  exists a es n',
    Forall (fun e => isClose e = false) es
    /\ c w = (a, mkWorld (trace w ++ es) n')
    /\ forall tr, c (mkWorld tr (ticks w)) = (a, mkWorld (tr ++ es) n').
Proof.
  intros Hc. destruct (Hc (ticks w)) as (a & es & n' & Hes & Hrun).
  exists a, es, n'. split; [done|]. split; [|done].
  destruct w as [tr n]. apply Hrun.
Qed.

Ltac scrutinise :=
  match goal with
  | |- quiet (match ?x with _ => _ end) => destruct x
  | |- tracing (match ?x with _ => _ end) => destruct x
  end.

Ltac quiet_step :=
  first [ apply quiet_ret
        | apply quiet_emit; reflexivity
        | apply quiet_bind; [|intros ?]
        | scrutinise ].

Section Worlds.

Context (env : Env).

Lemma quiet_ioutil_ReadAll resp : quiet (ioutil_ReadAll resp).
Proof. unfold ioutil_ReadAll. quiet_step. Qed.

Lemma quiet_makeRequest path lastModified : quiet (makeRequest env path lastModified).
Proof. unfold makeRequest. repeat quiet_step. Qed.

Lemma quiet_getLatestVersion distributionURL lastModified :
  quiet (getLatestVersion env distributionURL lastModified).
Proof.
  unfold getLatestVersion.
  apply quiet_bind; [apply quiet_makeRequest|]. intros [resp|err]; [|apply quiet_ret].
  destruct (negb (StatusCode resp =? 200)%Z); [apply quiet_ret|].
  apply quiet_bind; [apply quiet_ioutil_ReadAll|]. intros [body [err|]]; [apply quiet_ret|].
  repeat quiet_step.
Qed.

Lemma quiet_extractVersion lastModified product :
  quiet (extractVersion env lastModified product).
Proof.
  unfold extractVersion.
  destruct (assertMap (Some product)) as [productInfo|]; [|apply quiet_ret].
  destruct (assertMap (mapIndex productInfo "Distributions")) as [distributions|];
    [|apply quiet_ret].
  destruct (assertString (mapIndex distributions "English")) as [english|];
    [|apply quiet_ret].
  apply quiet_bind; [apply quiet_getLatestVersion|]. intros [ver [err|]]; [apply quiet_ret|].
  repeat quiet_step.
Qed.

Lemma quiet_parseCatalogResponse resp : quiet (parseCatalogResponse env resp).
Proof.
  unfold parseCatalogResponse.
  apply quiet_bind; [apply quiet_ioutil_ReadAll|]. intros [body [err|]]; [apply quiet_ret|].
  repeat quiet_step.
Qed.

Lemma tracing_time_Now : tracing (time_Now env).
Proof.
  intros n. exists (Now env n), [], (S n). split; [constructor|].
  intros tr. unfold time_Now. simpl. by rewrite app_nil_r.
Qed.

Lemma tracing_storeLatest name v1 st : tracing (storeLatest env name v1 st).
Proof.
  unfold storeLatest. destruct st as [versionsInfo changed].
  match goal with |- tracing (if ?b then _ else _) => destruct b end.
  - apply tracing_bind; [apply tracing_time_Now|]. intros now. apply tracing_ret.
  - apply tracing_ret.
Qed.

Lemma tracing_trackVersion v1 st : tracing (trackVersion env v1 st).
Proof.
  unfold trackVersion.
  repeat (match goal with |- tracing (if ?b then _ else _) => destruct b end);
    first [apply tracing_ret | apply tracing_storeLatest].
Qed.

Lemma visitProduct_bind lastModified key product st :
  forall w,
    visitProduct env lastModified key product st w
    = bind (extractVersion env lastModified product)
        (fun found => match found with
                      | Some v1 => trackVersion env v1 st
                      | None => ret st
                      end) w.
Proof.
  intros w. rewrite visitProduct_extract. unfold bind.
  by destruct (extractVersion env lastModified product w) as [[v1|] w'].
Qed.

Lemma tracing_ext {A} (c c' : M A) : (forall w, c w = c' w) -> tracing c' -> tracing c.
Proof.
  intros Heq Hc n. destruct (Hc n) as (a & es & n' & Hes & Hrun).
  exists a, es, n'. split; [done|]. intros tr. by rewrite Heq.
Qed.

Lemma tracing_visitProduct lastModified key product st :
  tracing (visitProduct env lastModified key product st).
Proof.
  eapply tracing_ext; [apply visitProduct_bind|].
  apply tracing_bind; [apply quiet_tracing, quiet_extractVersion|].
  intros [v1|]; [apply tracing_trackVersion | apply tracing_ret].
Qed.

Lemma tracing_rangeProducts lastModified productsMap st :
  tracing (rangeProducts env lastModified productsMap st).
Proof.
  revert st. induction productsMap as [|[key product] rest IH]; intros st; simpl.
  - apply tracing_ret.
  - apply tracing_bind; [apply tracing_visitProduct | apply IH].
Qed.

Lemma tracing_updateOSVersionsMapFromProductMap catalog versionsInfo lastModified :
  tracing (updateOSVersionsMapFromProductMap env catalog versionsInfo lastModified).
Proof.
  unfold updateOSVersionsMapFromProductMap.
  destruct catalog as [| | | | | |productCatalogMap]; try apply tracing_ret.
  destruct (assertMap (mapIndex productCatalogMap "Products")) as [productsMap|];
    [|apply tracing_ret].
  apply tracing_bind; [apply tracing_rangeProducts|].
  intros [versionsInfo' changed]. apply tracing_ret.
Qed.

Lemma tracing_updateOSVersionsMap url t : tracing (updateOSVersionsMap env url t).
Proof.
  unfold updateOSVersionsMap.
  destruct (osVersionsMap t !! OSTypeMac) as [versionsInfo|]; [|apply tracing_ret].
  apply tracing_bind; [apply quiet_tracing, quiet_makeRequest|].
  intros [resp|err]; [|apply tracing_ret].
  destruct (negb (StatusCode resp =? 200)%Z); [apply tracing_ret|].
  apply tracing_bind; [apply quiet_tracing, quiet_parseCatalogResponse|].
  intros [productMap|err]; [|apply tracing_ret].
  apply tracing_bindGo; [apply tracing_updateOSVersionsMapFromProductMap|].
  intros [versionsInfo' res]. apply tracing_ret.
Qed.

Lemma tracing_scrapeCatalogs catalogs t : tracing (scrapeCatalogs env catalogs t).
Proof.
  revert t. induction catalogs as [|[name url] rest IH]; intros t; simpl.
  - apply tracing_ret.
  - apply tracing_bindGo; [|intros [t' err]; apply IH].
    unfold scrapeForMacVersions.
    apply tracing_bindGo; [apply tracing_updateOSVersionsMap|].
    intros [t' [updated err]]. apply tracing_ret.
Qed.

Lemma tracing_selectLoop signals t : tracing (selectLoop env signals t).
Proof.
  revert t. induction signals as [|[|] rest IH]; intros t; simpl.
  - apply tracing_ret.
  - apply quiet_tracing, quiet_emit. reflexivity.
  - apply tracing_bindGo; [apply tracing_scrapeCatalogs | apply IH].
Qed.

Lemma tracing_mainLoop signals t : tracing (mainLoop env signals t).
Proof.
  unfold mainLoop.
  apply tracing_bindGo; [apply tracing_scrapeCatalogs|]. intros t'.
  destruct (tickerPeriod (interval t') <=? 0)%Z; [apply tracing_ret|].
  apply tracing_bind; [apply quiet_tracing, quiet_emit; reflexivity|].
  intros _. apply tracing_selectLoop.
Qed.

(** Two runs of a tracing computation from worlds with the same clock agree
    on the result and on the clock. *)
Lemma tracing_agree {A} (c : M A) (w1 w2 : World) :
  tracing c -> ticks w1 = ticks w2 ->
  fst (c w1) = fst (c w2) /\ ticks (snd (c w1)) = ticks (snd (c w2)).
Proof.
  intros Hc Hticks.
  destruct (tracing_run c w1 Hc) as (a & es & n' & _ & Hrun1 & Hany).
  destruct w2 as [tr2 n2]. simpl in Hticks. subst n2.
  by rewrite Hrun1, (Hany tr2).
Qed.

Lemma extractVersion_run lastModified product w :
  exists es,
    extractVersion env lastModified product w
    = (branchVersion env lastModified product, mkWorld (trace w ++ es) (ticks w)).
Proof.
  destruct (quiet_extractVersion lastModified product) as (a & es & _ & Hrun).
  exists es. unfold branchVersion. by rewrite !Hrun.
Qed.

Lemma visitProduct_fails lastModified key product st w :
  branchFails env lastModified product ->
  exists es,
    visitProduct env lastModified key product st w = (st, mkWorld (trace w ++ es) (ticks w)).
Proof.
  intros (productInfo & distributions & english & Hinfo & Hdist & Henglish & Hfails).
  destruct (quiet_getLatestVersion english lastModified) as ([ver err] & es & _ & Hrun).
  exists es. specialize (Hfails w). rewrite Hrun in Hfails. simpl in Hfails.
  unfold visitProduct. rewrite Hinfo, Hdist, Henglish. unfold bind. rewrite Hrun.
  destruct err as [err|]; [done|].
  destruct Hfails as [Hver (e & Hparse)].
  apply String.eqb_neq in Hver. by rewrite Hver, Hparse.
Qed.

(** The loop merges, in the order of the visit, the versions its products
    yield. *)
Lemma rangeProducts_trackAll lastModified productsMap st w1 w2 :
  ticks w1 = ticks w2 ->
  let run := rangeProducts env lastModified productsMap st w1 in
  let run' := trackAll env (branchVersions env lastModified productsMap) st w2 in
  fst run = fst run' /\ ticks (snd run) = ticks (snd run').
Proof.
  revert st w1 w2. induction productsMap as [|[key product] rest IH];
    intros st w1 w2 Hticks; [done|].
  cbv zeta. cbn [rangeProducts]. unfold bind. rewrite !visitProduct_extract.
  destruct (extractVersion_run lastModified product w1) as (es & ->).
  unfold branchVersions. cbn [omap list_omap snd].
  fold (branchVersions env lastModified rest).
  destruct (branchVersion env lastModified product) as [v1|]; cbn [trackAll].
  - unfold bind.
    pose proof (tracing_agree (trackVersion env v1 st)
                  (mkWorld (trace w1 ++ es) (ticks w1)) w2
                  (tracing_trackVersion v1 st) Hticks) as [Hst Hclock].
    destruct (trackVersion env v1 st (mkWorld (trace w1 ++ es) (ticks w1))) as [st1 w1'].
    destruct (trackVersion env v1 st w2) as [st2 w2'].
    simpl in Hst, Hclock. subst st2. by apply IH.
  - by apply IH.
Qed.

End Worlds.

(** ** The properties *)

(** C1.  A merge replaces the stored version of its branch only when the
    candidate is strictly greater than it, an absent entry being below every
    candidate; it touches no other branch.  Hence no branch ever decreases
    or disappears: not over the products of one pass of
    [updateOSVersionsMapFromProductMap], and not over any number of cycles of
    [mainLoop]. *)
Theorem latest_version_never_decreases (env : Env) :
  (forall name v1 versionsInfo changed w,
      let after := LatestVersions (fst (fst (storeLatest env name v1 (versionsInfo, changed) w))) in
      (forall other, other <> name -> after !! other = LatestVersions versionsInfo !! other)
      /\ match LatestVersions versionsInfo !! name with
         | None => after !! name = Some v1
         | Some latest =>
             (GreaterThan v1 latest = true /\ after !! name = Some v1)
             \/ (GreaterThan v1 latest = false /\ after !! name = Some latest)
         end)
  /\ (forall lastModified productsMap st w,
         versions_le (LatestVersions (fst st))
           (LatestVersions (fst (fst (rangeProducts env lastModified productsMap st w)))))
  /\ (forall signals t w t' status w',
         mainLoop env signals t w = (Return (t', status), w') -> table_le t t').
Proof.
  split; [|split].
  - intros name v1 versionsInfo changed w after. split.
    + intros other Hne. subst after.
      by rewrite storeLatest_other.
    + subst after.
      destruct (storeLatest_cases env name v1 versionsInfo changed w)
        as [(latest & Hl & Hgt & ->) | [Hwhy ->]]; simpl.
      * rewrite Hl. by right.
      * rewrite lookup_insert_eq.
        destruct Hwhy as [-> | (latest & -> & Hgt)]; [done | by left].
  - intros. apply rangeProducts_mono.
  - intros signals t w t' status w'. apply mainLoop_mono.
Qed.

(** C2.  Merges of the versions [vs] for one branch leave in that branch the
    greatest of [vs] and of what was stored before, in whatever order they
    are applied and whatever the clock shows meanwhile; a merge repeated at
    once changes nothing; and the table that the loop over the products
    leaves is the same for every order in which [range] visits them. *)
Theorem merges_converge_to_maximum (env : Env) :
  (forall name vs vs' st w w',
      vs ≡ₚ vs' ->
      let stored := LatestVersions (fst st) !! name in
      let final :=
        LatestVersions (fst (fst (storeLatestAll env name vs st w))) !! name in
      let final' :=
        LatestVersions (fst (fst (storeLatestAll env name vs' st w'))) !! name in
      greatest (option_list stored ++ vs) final /\ final' = final)
  /\ (forall name v st w,
         let (st1, w1) := storeLatest env name v st w in
         storeLatest env name v st1 w1 = (st1, w1))
  /\ (forall lastModified productsMap productsMap' st w w',
         productsMap ≡ₚ productsMap' ->
         LatestVersions (fst (fst (rangeProducts env lastModified productsMap st w)))
         = LatestVersions (fst (fst (rangeProducts env lastModified productsMap' st w')))).
Proof.
  split; [|split].
  - intros name vs vs' st w w' Hperm stored final final'. subst stored final final'.
    rewrite !storeLatestAll_lookup.
    split; [apply greatest_foldl|].
    eapply greatest_unique; [|apply greatest_foldl].
    eapply greatest_perm; [|apply greatest_foldl].
    by rewrite Hperm.
  - intros name v st w. apply storeLatest_idempotent.
  - intros lastModified productsMap productsMap' st w w' Hperm.
    destruct (rangeProducts_trackAll env lastModified productsMap st w w eq_refl)
      as [-> _].
    destruct (rangeProducts_trackAll env lastModified productsMap' st w' w' eq_refl)
      as [-> _].
    apply trackAll_perm. unfold branchVersions. by rewrite Hperm.
Qed.

Lemma merges_converge_to_maximum_witness :
  let vs := [mkVersion 10 13 4; mkVersion 10 13 6; mkVersion 10 13 5] in
  let vs' := [mkVersion 10 13 6; mkVersion 10 13 4; mkVersion 10 13 5] in
  let st := ({| LatestVersions := {[ versionNameHighSierra := mkVersion 10 13 2 ]};
                LastModified := 5%Z |}, false) in
  let final :=
    LatestVersions (fst (fst (storeLatestAll Demo.env versionNameHighSierra vs st Demo.w0)))
      !! versionNameHighSierra in
  let final' :=
    LatestVersions (fst (fst (storeLatestAll Demo.env versionNameHighSierra vs' st Demo.w0)))
      !! versionNameHighSierra in
  vs ≡ₚ vs'
  /\ greatest (mkVersion 10 13 2 :: vs) final
  /\ final' = final
  /\ final = Some (mkVersion 10 13 6).
Proof.
  assert (Hperm : [mkVersion 10 13 4; mkVersion 10 13 6; mkVersion 10 13 5]
                  ≡ₚ [mkVersion 10 13 6; mkVersion 10 13 4; mkVersion 10 13 5])
    by apply perm_swap.
  destruct (merges_converge_to_maximum Demo.env) as (Hbranch & _ & _).
  pose proof (Hbranch versionNameHighSierra _ _
                ({| LatestVersions := {[ versionNameHighSierra := mkVersion 10 13 2 ]};
                    LastModified := 5%Z |}, false) Demo.w0 Demo.w0 Hperm) as H.
  cbv zeta in H. destruct H as (Hgreatest & Hsame).
  split; [exact Hperm|]. split; [exact Hgreatest|]. split; [exact Hsame|].
  reflexivity.
Defined.

(** C3.  A candidate that is less than or equal to the version stored for
    its branch is merged to no effect: the table entry, [LastModified],
    [changed] and the clock are as before. *)
Theorem merge_of_older_version_is_noop (env : Env) (name : string) (v1 latest : Version)
    (versionsInfo : VersionsInfo) (changed : bool) (w : World) :
  LatestVersions versionsInfo !! name = Some latest ->
  version.le v1 latest ->
  storeLatest env name v1 (versionsInfo, changed) w = ((versionsInfo, changed), w)
  /\ (branchOf v1 = Some name ->
      trackVersion env v1 (versionsInfo, changed) w = ((versionsInfo, changed), w)).
Proof.
  intros Hl Hle.
  assert (Hkeep : storeLatest env name v1 (versionsInfo, changed) w
                  = ((versionsInfo, changed), w)).
  { eapply storeLatest_keep; [exact Hl|].
    unfold version.le in Hle. by rewrite LessThan_GreaterThan in Hle. }
  split; [exact Hkeep|].
  intros Hbranch.
  pose proof (trackVersion_cases env v1 (versionsInfo, changed) w) as Hcases.
  rewrite Hbranch in Hcases. by rewrite Hcases.
Qed.

Lemma merge_of_older_version_is_noop_witness :
  let versionsInfo := {| LatestVersions := {[ versionNameHighSierra := mkVersion 10 13 6 ]};
                         LastModified := 5%Z |} in
  version.le (mkVersion 10 13 4) (mkVersion 10 13 6)
  /\ storeLatest Demo.env versionNameHighSierra (mkVersion 10 13 4) (versionsInfo, false) Demo.w0
     = ((versionsInfo, false), Demo.w0)
  /\ (branchOf (mkVersion 10 13 4) = Some versionNameHighSierra ->
      trackVersion Demo.env (mkVersion 10 13 4) (versionsInfo, false) Demo.w0
      = ((versionsInfo, false), Demo.w0)).
Proof.
  split; [reflexivity|].
  apply (merge_of_older_version_is_noop Demo.env versionNameHighSierra
           (mkVersion 10 13 4) (mkVersion 10 13 6)).
  - reflexivity.
  - reflexivity.
Defined.

(** C4.  When the catalog request is answered with a status other than 200,
    [updateOSVersionsMap] returns [(false, nil)]: the tracker is as it was,
    the clock has not been read, and the one event of the cycle is the
    catalog request itself, so no distribution was requested and no body
    read.  [scrapeForMacVersions] then returns no error. *)
Theorem catalog_not_modified_short_circuits (env : Env) (url : string) (t : Tracker)
    (w : World) (versionsInfo : VersionsInfo) (resp : Response) :
  osVersionsMap t !! OSTypeMac = Some versionsInfo ->
  NewRequest env "GET" url = None ->
  Do env (conditionalGet env url (LastModified versionsInfo)) = inl resp ->
  StatusCode resp <> 200%Z ->
  let w' := emit (EvDo (conditionalGet env url (LastModified versionsInfo))) w in
  updateOSVersionsMap env url t w = (Return (t, (false, None)), w')
  /\ scrapeForMacVersions env url t w = (Return (t, None), w').
Proof.
  intros Hmac Hnew Hdo Hstatus w'.
  assert (Hupd : updateOSVersionsMap env url t w = (Return (t, (false, None)), w')).
  { unfold updateOSVersionsMap. rewrite Hmac.
    unfold bind, makeRequest. rewrite Hnew.
    fold (conditionalGet env url (LastModified versionsInfo)). rewrite Hdo.
    apply Z.eqb_neq in Hstatus. by rewrite Hstatus. }
  split; [exact Hupd|].
  unfold scrapeForMacVersions, bindGo, bind. by rewrite Hupd.
Qed.

Lemma catalog_not_modified_short_circuits_witness :
  let t := MakeTracker 300 in
  let url := "https://swscan.apple.com/content/catalogs/others/index-10.12.sucatalog" in
  let w' := emit (EvDo (conditionalGet Demo.env url zeroTime)) Demo.w0 in
  updateOSVersionsMap Demo.env url t Demo.w0 = (Return (t, (false, None)), w')
  /\ scrapeForMacVersions Demo.env url t Demo.w0 = (Return (t, None), w').
Proof.
  apply (catalog_not_modified_short_circuits Demo.env _ (MakeTracker 300) Demo.w0
           Demo.emptyInfo {| StatusCode := 404; Body := ("", None) |}).
  - reflexivity.
  - reflexivity.
  - reflexivity.
  - simpl. lia.
Defined.

(** C5.  When the distribution of one product of the catalog fails (its
    request, the read of its body, the search for its version field or the
    parse of its version), [updateOSVersionsMapFromProductMap] still returns,
    with no error; its result is the one it gives on the catalog without
    that product, and the table holds exactly the merges of the versions the
    other products yield. *)
Theorem failing_branch_does_not_abort_siblings (env : Env) (lastModified : Time)
    (before after : list (string * PlistValue)) (key : string) (product : PlistValue)
    (catalog catalog' : list (string * PlistValue))
    (versionsInfo : VersionsInfo) (w : World) :
  branchFails env lastModified product ->
  mapIndex catalog "Products" = Some (PDict (before ++ (key, product) :: after)) ->
  mapIndex catalog' "Products" = Some (PDict (before ++ after)) ->
  exists versionsInfo' changed w1 w2 w3,
    updateOSVersionsMapFromProductMap env (PDict catalog) versionsInfo lastModified w
    = (Return (versionsInfo', (changed, None)), w1)
    /\ updateOSVersionsMapFromProductMap env (PDict catalog') versionsInfo lastModified w
       = (Return (versionsInfo', (changed, None)), w2)
    /\ trackAll env (branchVersions env lastModified (before ++ after))
         (versionsInfo, false) w
       = ((versionsInfo', changed), w3)
    /\ ticks w1 = ticks w2 /\ ticks w2 = ticks w3.
Proof.
  intros Hfails Hcatalog Hcatalog'.
  unfold updateOSVersionsMapFromProductMap. rewrite Hcatalog, Hcatalog'. simpl.
  unfold bind, ret.
  (* the run with the failing product *)
  rewrite rangeProducts_app. simpl. unfold bind.
  pose proof (rangeProducts_app env lastModified before after (versionsInfo, false) w) as Happ.
  destruct (rangeProducts env lastModified before (versionsInfo, false) w) as [st1 wb] eqn:Hbefore.
  destruct (visitProduct_fails env lastModified key product st1 wb Hfails) as (es & ->).
  pose proof (tracing_agree (rangeProducts env lastModified after st1)
                (mkWorld (trace wb ++ es) (ticks wb)) wb
                (tracing_rangeProducts env lastModified after st1) eq_refl) as [Hst Hclock].
  rewrite Happ.
  pose proof (rangeProducts_trackAll env lastModified (before ++ after)
                (versionsInfo, false) w w eq_refl) as Htrack.
  cbv zeta in Htrack. rewrite Happ in Htrack.
  destruct (rangeProducts env lastModified after st1 (mkWorld (trace wb ++ es) (ticks wb)))
    as [[vi1 changed1] w1].
  destruct (rangeProducts env lastModified after st1 wb) as [[vi2 changed2] w2].
  simpl in Hst, Hclock. injection Hst as -> ->.
  destruct (trackAll env _ (versionsInfo, false) w) as [st3 w3].
  destruct Htrack as [Hst3 Hclock3]. simpl in Hst3, Hclock3. subst st3.
  exists vi2, changed2, w1, w2, w3. done.
Qed.

Lemma failing_branch_does_not_abort_siblings_witness :
  let lastModified := zeroTime in
  let before := [("091-39211", Demo.product Demo.hsURL)] in
  let after := [("091-22860", Demo.product Demo.sierraURL)] in
  exists versionsInfo' changed w1 w2 w3,
    updateOSVersionsMapFromProductMap Demo.env
      (Demo.catalog (before ++ ("041-00001", Demo.product Demo.downURL) :: after))
      Demo.emptyInfo lastModified Demo.w0
    = (Return (versionsInfo', (changed, None)), w1)
    /\ updateOSVersionsMapFromProductMap Demo.env (Demo.catalog (before ++ after))
         Demo.emptyInfo lastModified Demo.w0
       = (Return (versionsInfo', (changed, None)), w2)
    /\ trackAll Demo.env (branchVersions Demo.env lastModified (before ++ after))
         (Demo.emptyInfo, false) Demo.w0
       = ((versionsInfo', changed), w3)
    /\ ticks w1 = ticks w2 /\ ticks w2 = ticks w3.
Proof.
  apply (failing_branch_does_not_abort_siblings Demo.env zeroTime
           [("091-39211", Demo.product Demo.hsURL)]
           [("091-22860", Demo.product Demo.sierraURL)]
           "041-00001" (Demo.product Demo.downURL)).
  - exists [("Distributions", PDict [("English", PString Demo.downURL)])],
      [("English", PString Demo.downURL)], Demo.downURL.
    repeat split.
  - reflexivity.
  - reflexivity.
Defined.

(** C6.  A product whose version parses to something below 10.11.0 is
    passed over: the loop state is as before the visit, and a catalog made of
    that product alone gives [(false, nil)]. *)
Theorem version_below_threshold_is_skipped (env : Env) (lastModified : Time)
    (key : string) (product : PlistValue) (st : LoopState) (w w' : World) (v1 : Version) :
  extractVersion env lastModified product w = (Some v1, w') ->
  LessThan v1 elCapitanMajor = true ->
  visitProduct env lastModified key product st w = (st, w')
  /\ updateOSVersionsMapFromProductMap env (PDict [("Products", PDict [(key, product)])])
       (fst st) lastModified w
     = (Return (fst st, (false, None)), w').
Proof.
  intros Hextract Hbelow.
  assert (Hvisit : forall st0, visitProduct env lastModified key product st0 w = (st0, w')).
  { intros st0. rewrite visitProduct_extract, Hextract.
    unfold trackVersion. by rewrite Hbelow. }
  split; [apply Hvisit|].
  unfold updateOSVersionsMapFromProductMap. simpl. unfold bind.
  by rewrite Hvisit.
Qed.

Lemma version_below_threshold_is_skipped_witness :
  let product := Demo.product Demo.yosemiteURL in
  let st := ({| LatestVersions := {[ versionNameSierra := mkVersion 10 12 6 ]};
                LastModified := 7%Z |}, false) in
  let w' := snd (extractVersion Demo.env 7%Z product Demo.w0) in
  visitProduct Demo.env 7%Z "031-30888" product st Demo.w0 = (st, w')
  /\ updateOSVersionsMapFromProductMap Demo.env
       (PDict [("Products", PDict [("031-30888", product)])]) (fst st) 7%Z Demo.w0
     = (Return (fst st, (false, None)), w').
Proof.
  apply (version_below_threshold_is_skipped Demo.env 7%Z "031-30888"
           (Demo.product Demo.yosemiteURL) _ Demo.w0 _ (mkVersion 10 10 5)).
  - reflexivity.
  - reflexivity.
Defined.

(** The loop of [mainLoop] on [n] ticks followed by the cancellation. *)
Lemma selectLoop_ticks_then_done (env : Env) (n : nat) (rest : list Signal)
    (t : Tracker) (w : World) :
  selectLoop env (repeat TimerTick n ++ CtxDone :: rest) t w
  = (let+ t' := scrapeTimes env n t in
     fun w' => (Return (t', Exited), emit EvTickerStop w')) w.
Proof.
  revert t w. induction n as [|n IH]; intros t w; simpl; [done|].
  unfold bindGo, bind, ret.
  destruct (ScrapeForMacVersions env t w) as [[t1|msg] w1]; [|done].
  by rewrite IH.
Qed.

(** The loop of [mainLoop] on [n] ticks and no cancellation yet. *)
Lemma selectLoop_ticks (env : Env) (n : nat) (t : Tracker) (w : World) :
  selectLoop env (repeat TimerTick n) t w
  = (let+ t' := scrapeTimes env n t in ret (Return (t', Selecting))) w.
Proof.
  revert t w. induction n as [|n IH]; intros t w; simpl; [done|].
  unfold bindGo, bind, ret.
  destruct (ScrapeForMacVersions env t w) as [[t1|msg] w1]; [|done].
  by rewrite IH.
Qed.



(** With an interval of zero seconds the first cycle is run and the creation
    of the ticker panics. *)
Lemma mainLoop_panics_without_period (env : Env) (signals : list Signal) (w : World) :
  mainLoop env signals (MakeTracker 0) w
  = (let+ t1 := ScrapeForMacVersions env (MakeTracker 0) in
     ret (Panic "non-positive interval for NewTicker")) w.
Proof.
  unfold mainLoop, bindGo, bind, ret.
  destruct (ScrapeForMacVersions env (MakeTracker 0) w) as [[t1|msg] w1] eqn:Hscrape; [|done].
  by rewrite (ScrapeForMacVersions_interval env _ _ _ _ Hscrape).
Qed.

(** C8, as the code has it.  After a response with status 200,
    [getLatestVersion] reads the body to its end (or to the first read
    error) before it returns, whatever it returns, and so does
    [parseCatalogResponse]; that read is the last thing either does to the
    world.  No run of [mainLoop] closes a body: every event it adds is a
    request, a read, or the start or stop of the ticker. *)
Theorem response_body_is_read_and_never_closed (env : Env) :
  (forall url lastModified w resp,
      NewRequest env "GET" url = None ->
      Do env (conditionalGet env url lastModified) = inl resp ->
      StatusCode resp = 200%Z ->
      snd (getLatestVersion env url lastModified w)
      = emit (EvReadAll resp) (emit (EvDo (conditionalGet env url lastModified)) w))
  /\ (forall resp w, snd (parseCatalogResponse env resp w) = emit (EvReadAll resp) w)
  /\ (forall signals t w,
         exists es,
           trace (snd (mainLoop env signals t w)) = (trace w ++ es)%list
           /\ Forall (fun e => isClose e = false) es).
Proof.
  split; [|split].
  - intros url lastModified w resp Hnew Hdo Hstatus.
    unfold getLatestVersion, bind, makeRequest. rewrite Hnew.
    fold (conditionalGet env url lastModified). rewrite Hdo, Hstatus. simpl.
    destruct (Body resp) as [body [err|]]; [done|].
    repeat (match goal with |- context [if ?b then _ else _] => destruct b end; try done).
  - intros resp w. unfold parseCatalogResponse, bind, ioutil_ReadAll.
    destruct (Body resp) as [body [err|]]; [done|].
    by destruct (Unmarshal env body).
  - intros signals t w.
    destruct (tracing_run (mainLoop env signals t) w (tracing_mainLoop env signals t))
      as (a & es & n' & Hes & Hrun & _).
    exists es. by rewrite Hrun.
Qed.

(** C8, as the claim has it, fails: a distribution answered with status 200
    is requested and read, and its body is not closed. *)
Lemma response_body_left_open_after_200 :
  let resp := {| StatusCode := 200; Body := (Demo.hsBody, None) |} in
  let req := conditionalGet Demo.env Demo.hsURL zeroTime in
  let run := getLatestVersion Demo.env Demo.hsURL zeroTime Demo.w0 in
  Do Demo.env req = inl resp
  /\ fst run = ("10.13.6", None)
  /\ trace (snd run) = [EvDo req; EvReadAll resp]
  /\ existsb isClose (trace (snd run)) = false.
Proof. repeat split. Qed.

(** C9, as the code has it.  A parsed version equal to 10.11.0 is not below
    the oldest major version and is not greater than any of the three major
    versions: it is filed under no branch, and the visit of a product that
    yields it leaves the loop state as it was. *)
Theorem oldest_boundary_version_is_dropped (env : Env) :
  LessThan (mkVersion 10 11 0) elCapitanMajor = false
  /\ GreaterThan (mkVersion 10 11 0) highSierraMajor = false
  /\ GreaterThan (mkVersion 10 11 0) sierraMajor = false
  /\ GreaterThan (mkVersion 10 11 0) elCapitanMajor = false
  /\ branchOf (mkVersion 10 11 0) = None
  /\ (forall st w, trackVersion env (mkVersion 10 11 0) st w = (st, w))
  /\ (forall lastModified key product st w w',
         extractVersion env lastModified product w = (Some (mkVersion 10 11 0), w') ->
         visitProduct env lastModified key product st w = (st, w')).
Proof.
  repeat split.
  intros lastModified key product st w w' Hextract.
  by rewrite visitProduct_extract, Hextract.
Qed.

(** C9, as the claim has it, fails for the two other boundaries: 10.12.0 is
    greater than 10.11.0 and is stored as the latest El Capitan version, and
    10.13.0 is stored as the latest Sierra version. *)
Lemma boundary_version_is_filed_under_older_branch :
  let catalog := Demo.catalog [("091-22860", Demo.product Demo.sierraURL)] in
  let run := updateOSVersionsMapFromProductMap Demo.env catalog Demo.emptyInfo zeroTime Demo.w0 in
  let after := fst (fst (trackVersion Demo.env highSierraMajor (Demo.emptyInfo, false) Demo.w0)) in
  fst (getLatestVersion Demo.env Demo.sierraURL zeroTime Demo.w0) = ("10.12.0", None)
  /\ NewVersion Demo.env "10.12.0" = inl sierraMajor
  /\ branchOf sierraMajor = Some versionNameElCapitan
  /\ fst run
     = Return ({| LatestVersions := <[versionNameElCapitan := mkVersion 10 12 0]> ∅;
                  LastModified := 1000%Z |}, (true, None))
  /\ branchOf highSierraMajor = Some versionNameSierra
  /\ LatestVersions after !! versionNameSierra = Some (mkVersion 10 13 0).
Proof. repeat split. Qed.

(** C10.  [getLatestVersion] returns the empty string and no error both when
    the distribution is answered with a status other than 200 and when the
    document read is set aside by the title test or by the discard test. *)
Theorem not_modified_and_not_relevant_return_alike (env : Env) (url : string)
    (lastModified : Time) (w : World) (resp : Response) :
  NewRequest env "GET" url = None ->
  Do env (conditionalGet env url lastModified) = inl resp ->
  StatusCode resp <> 200%Z
  \/ (exists body,
         Body resp = (body, None)
         /\ (length (TitleRegex env body) <> 4
             \/ 1 < length (DiscardRegex env (nth 3 (TitleRegex env body) "")))) ->
  fst (getLatestVersion env url lastModified w) = ("", None).
Proof.
  intros Hnew Hdo Hwhy.
  unfold getLatestVersion, bind, makeRequest. rewrite Hnew.
  fold (conditionalGet env url lastModified). rewrite Hdo.
  destruct (negb (StatusCode resp =? 200)%Z) eqn:Hstatus; [done|].
  destruct Hwhy as [Hne | (body & Hbody & Hfilter)].
  { apply Z.eqb_neq in Hne. by rewrite Hne in Hstatus. }
  unfold ioutil_ReadAll. rewrite Hbody. simpl.
  destruct (negb (length (TitleRegex env body) =? 4)%nat) eqn:Htitle; [done|].
  destruct Hfilter as [Hlen | Hlen].
  { apply Nat.eqb_neq in Hlen. by rewrite Hlen in Htitle. }
  apply Nat.ltb_lt in Hlen. by rewrite Hlen.
Qed.

Lemma not_modified_and_not_relevant_return_alike_witness :
  fst (getLatestVersion Demo.env Demo.staleURL zeroTime Demo.w0) = ("", None).
Proof.
  apply (not_modified_and_not_relevant_return_alike Demo.env Demo.staleURL zeroTime Demo.w0
           {| StatusCode := 304; Body := ("", None) |}).
  - reflexivity.
  - reflexivity.
  - left. simpl. lia.
Defined.

(** ** A cycle on the concrete environment *)

(** A catalog of one product whose distribution carries version 10.13.6: the
    cycle stores it under [versionNameHighSierra] and reports an update. *)
Example cycle_stores_10_13_6 :
  let url := Demo.mainCatalogURL in
  let env := {| TitleRegex := Demo.title; DiscardRegex := Demo.discard;
                VersionRegex := Demo.vers; NewVersion := Demo.newVersion;
                Unmarshal := fun _ => inl (Demo.catalog [("091-39211", Demo.product Demo.hsURL)]);
                NewRequest := fun _ _ => None; Do := Demo.doRequest;
                Format := fun _ => "Thu, 1 Jan 1970 00:00:00 GMT";
                Now := fun n => (1000 + Z.of_nat n)%Z |} in
  match fst (updateOSVersionsMap env url (MakeTracker 300) Demo.w0) with
  | Return (t', res) =>
      res = (true, None)
      /\ (LatestVersions <$> ReadVersions t' OSTypeMac)
         = Some {[ versionNameHighSierra := mkVersion 10 13 6 ]}
  | Panic _ => False
  end.
Proof. vm_compute. split; reflexivity. Qed.

(** ** How the older revision differs *)

(** In the older [updateOSVersionsMapFromProductMap] an error on the first
    distribution ends the function with that error: nothing is recorded, and
    the other distributions are not requested. *)
Lemma legacy_first_error_ends_the_pass (env : Env) (productMap : Legacy.ProductMap)
    (versionsInfo : Legacy.VersionsInfo) (lastModified : Time) (w : World)
    (url : string) (err : error) :
  Legacy.distributionOf (Legacy.HighSierra productMap) = Some url ->
  NewRequest env "GET" url = None ->
  Do env (conditionalGet env url lastModified) = inr err ->
  Legacy.updateOSVersionsMapFromProductMap env (Some productMap) versionsInfo lastModified w
  = (Return (versionsInfo, (false, Some err)),
     emit (EvDo (conditionalGet env url lastModified)) w).
Proof.
  intros Hurl Hnew Hdo.
  unfold Legacy.updateOSVersionsMapFromProductMap, Legacy.collect, bind.
  rewrite Hurl. unfold Legacy.getLatestVersion, bind, makeRequest. rewrite Hnew.
  fold (conditionalGet env url lastModified). by rewrite Hdo.
Qed.

(** The older [mainLoop] runs no cycle before the first tick. *)
Lemma legacy_mainLoop_waits_for_first_tick {T : Type} (scrape : T -> M (Go T))
    (interval : Z) (t : T) (w : World) :
  (0 < tickerPeriod interval)%Z ->
  Legacy.mainLoop scrape interval [] t w
  = (Return (t, Selecting), emit (EvNewTicker (tickerPeriod interval)) w).
Proof.
  intros Hperiod. unfold Legacy.mainLoop.
  apply Z.leb_gt in Hperiod. by rewrite Hperiod.
Qed.

(** ** Further properties of the code *)

(** X1.  Whatever the network and the documents, [getLatestVersion] returns
    the empty string with every error; and a version that is not empty comes
    from a response with status 200 whose body was read without error, whose
    title matches with its three groups, which the discard expression does
    not match, and it is the second group of the version match. *)
Theorem getLatestVersion_postcondition (env : Env) (url : string) (lastModified : Time)
    (w : World) :
  let (ver, err) := fst (getLatestVersion env url lastModified w) in
  (err <> None -> ver = "")
  /\ (ver <> "" ->
      exists resp body,
        NewRequest env "GET" url = None
        /\ Do env (conditionalGet env url lastModified) = inl resp
        /\ StatusCode resp = 200%Z
        /\ Body resp = (body, None)
        /\ length (TitleRegex env body) = 4
        /\ length (DiscardRegex env (nth 3 (TitleRegex env body) "")) <= 1
        /\ length (VersionRegex env body) = 3
        /\ err = None
        /\ ver = nth 2 (VersionRegex env body) "").
Proof.
  unfold getLatestVersion, bind, makeRequest.
  destruct (NewRequest env "GET" url) as [e|] eqn:Hnew; [by split|].
  fold (conditionalGet env url lastModified).
  destruct (Do env (conditionalGet env url lastModified)) as [resp|e] eqn:Hdo; [|by split].
  destruct (negb (StatusCode resp =? 200)%Z) eqn:Hstatus; [by split|].
  unfold ioutil_ReadAll.
  destruct (Body resp) as [body [e|]] eqn:Hbody; [by split|]. simpl.
  destruct (negb (length (TitleRegex env body) =? 4)%nat) eqn:Htitle; [by split|].
  destruct (1 <? length (DiscardRegex env (nth 3 (TitleRegex env body) "")))%nat
    eqn:Hdiscard; [by split|].
  destruct (negb (length (VersionRegex env body) =? 3)%nat) eqn:Hvers; [by split|].
  split; [done|]. intros _. exists resp, body.
  apply negb_false_iff in Hstatus, Htitle, Hvers.
  apply Z.eqb_eq in Hstatus. apply Nat.eqb_eq in Htitle, Hvers.
  apply Nat.ltb_ge in Hdiscard. done.
Qed.

Section CatalogShape.

Context (env : Env).

Lemma visitProduct_no_distribution lastModified key product st w :
  distributionURL product = None ->
  visitProduct env lastModified key product st w = (st, w).
Proof.
  unfold distributionURL, visitProduct.
  destruct (assertMap (Some product)) as [productInfo|]; [|done].
  destruct (assertMap (mapIndex productInfo "Distributions")) as [distributions|]; [|done].
  by intros ->.
Qed.

Lemma rangeProducts_no_distribution lastModified productsMap st w :
  Forall (fun entry => distributionURL (snd entry) = None) productsMap ->
  rangeProducts env lastModified productsMap st w = (st, w).
Proof.
  induction 1 as [|[key product] rest Hnone _ IH]; simpl; [done|].
  unfold bind. by rewrite visitProduct_no_distribution.
Qed.

End CatalogShape.

(** X2.  [updateOSVersionsMapFromProductMap] on a decoded catalog of the
    wrong shape.  A top-level value that is not a dictionary panics.  A
    dictionary without a [Products] dictionary gives the error "Could not
    parse products".  Products that are not dictionaries, or have no
    [Distributions] dictionary, or no [English] string in it, are passed
    over: a catalog of such products alone gives [(false, nil)].  In all
    three cases no request is sent and nothing is written. *)
Theorem malformed_catalog_is_told_apart (env : Env) (versionsInfo : VersionsInfo)
    (lastModified : Time) (w : World) :
  (forall catalog,
      (forall entries, catalog <> PDict entries) ->
      exists msg,
        updateOSVersionsMapFromProductMap env catalog versionsInfo lastModified w
        = (Panic msg, w))
  /\ (forall entries,
         assertMap (mapIndex entries "Products") = None ->
         updateOSVersionsMapFromProductMap env (PDict entries) versionsInfo lastModified w
         = (Return (versionsInfo, (false, Some "Could not parse products")), w))
  /\ (forall entries productsMap,
         mapIndex entries "Products" = Some (PDict productsMap) ->
         Forall (fun entry => distributionURL (snd entry) = None) productsMap ->
         updateOSVersionsMapFromProductMap env (PDict entries) versionsInfo lastModified w
         = (Return (versionsInfo, (false, None)), w)).
Proof.
  split; [|split].
  - intros catalog Hshape. unfold updateOSVersionsMapFromProductMap.
    destruct catalog; try (eexists; reflexivity).
    by destruct (Hshape entries).
  - intros entries Hnone. unfold updateOSVersionsMapFromProductMap. by rewrite Hnone.
  - intros entries productsMap Hproducts Hnone.
    unfold updateOSVersionsMapFromProductMap. rewrite Hproducts. simpl.
    unfold bind. by rewrite rangeProducts_no_distribution.
Qed.

(** The loop of [equal] compares [a] with what [b] holds from index [i] on. *)
Lemma legacy_equalFrom_decides (a b : list string) (i : nat) :
  length (drop i b) = length a ->
  Legacy.equalFrom i a b = Return (bool_decide (a = drop i b)).
Proof.
  revert i. induction a as [|val rest IH]; intros i Hlen; simpl.
  - apply nil_length_inv in Hlen. rewrite Hlen. by rewrite bool_decide_eq_true_2.
  - destruct (b !! i) as [x|] eqn:Hx.
    + rewrite (drop_S _ _ _ Hx) in Hlen |- *. simpl in Hlen.
      destruct (String.eqb x val) eqn:Heq; simpl.
      * apply String.eqb_eq in Heq as ->. rewrite IH by lia.
        f_equal. apply bool_decide_ext. split; [by intros -> | by intros [= ->]].
      * apply String.eqb_neq in Heq. f_equal. symmetry.
        apply bool_decide_eq_false_2. by intros [= ->].
    + apply lookup_ge_None in Hx. rewrite drop_ge in Hlen by done. done.
Qed.

(** X3.  [equal] (the older [tracker.go]) never indexes out of range and
    returns [true] exactly when the two slices hold the same strings in the
    same order. *)
Theorem legacy_equal_decides_equality (a b : list string) :
  Legacy.equal a b = Return (bool_decide (a = b)).
Proof.
  unfold Legacy.equal.
  destruct (length a =? length b)%nat eqn:Hlen; simpl.
  - apply Nat.eqb_eq in Hlen. rewrite legacy_equalFrom_decides by (by rewrite drop_0).
    by rewrite drop_0.
  - apply Nat.eqb_neq in Hlen. f_equal. symmetry.
    apply bool_decide_eq_false_2. by intros ->.
Qed.

(** *** The flag [changed] *)

Lemma le_lt_trans (a b c : Version) : version.le a b -> version.lt b c -> version.lt a c.
Proof.
  rewrite le_iff. intros Hab Hbc.
  destruct (lt_total a c) as [?|[->|Hca]]; [done|done|].
  destruct Hab. by eapply lt_trans.
Qed.

Lemma above_irrefl (o : option Version) : ~ above o o.
Proof. destruct o as [a|]; simpl; [apply lt_irrefl | by intros []]. Qed.

Section Changed.

Context (env : Env) (versionsInfo0 : VersionsInfo) (n0 : nat).

Lemma passState_ticks st w w' :
  ticks w = ticks w' -> passState env versionsInfo0 n0 st w ->
  passState env versionsInfo0 n0 st w'.
Proof. unfold passState. by intros ->. Qed.

Lemma storeLatest_passState name v1 st w :
  passState env versionsInfo0 n0 st w ->
  let (st', w') := storeLatest env name v1 st w in
  passState env versionsInfo0 n0 st' w'.
Proof.
  destruct st as [versionsInfo changed]. intros [Hle Hflag].
  pose proof (storeLatest_mono env name v1 (versionsInfo, changed) w) as Hmono.
  destruct (storeLatest_cases env name v1 versionsInfo changed w)
    as [(latest & _ & _ & Hrun) | [Hwhy Hrun]]; rewrite Hrun in Hmono |- *.
  { by split. }
  simpl in *. split; [by eapply versions_le_trans|]. simpl.
  split; [|split; [|done]].
  - exists name. rewrite lookup_insert_eq.
    destruct (LatestVersions versionsInfo0 !! name) as [o|] eqn:Ho; simpl; [|done].
    destruct (Hle name o Ho) as (n & Hn & Hon).
    destruct Hwhy as [Hnone | (latest & Hl & Hgt)]; [congruence|].
    assert (latest = n) as -> by congruence.
    eapply le_lt_trans; [exact Hon | by apply GreaterThan_spec].
  - destruct changed; [lia|]. destruct Hflag as [_ ->]. lia.
Qed.

Lemma trackVersion_passState v1 st w :
  passState env versionsInfo0 n0 st w ->
  let (st', w') := trackVersion env v1 st w in
  passState env versionsInfo0 n0 st' w'.
Proof.
  intros Hstate. pose proof (trackVersion_cases env v1 st w) as Hcases.
  destruct (branchOf v1) as [name|]; rewrite Hcases; [|done].
  by apply storeLatest_passState.
Qed.

Lemma visitProduct_passState lastModified key product st w :
  passState env versionsInfo0 n0 st w ->
  let (st', w') := visitProduct env lastModified key product st w in
  passState env versionsInfo0 n0 st' w'.
Proof.
  intros Hstate. rewrite visitProduct_extract.
  destruct (extractVersion_run env lastModified product w) as (es & ->).
  assert (Hstate' : passState env versionsInfo0 n0 st (mkWorld (trace w ++ es) (ticks w)))
    by (by eapply passState_ticks).
  destruct (branchVersion env lastModified product) as [v1|]; [|done].
  by apply trackVersion_passState.
Qed.

Lemma rangeProducts_passState lastModified productsMap st w :
  passState env versionsInfo0 n0 st w ->
  let (st', w') := rangeProducts env lastModified productsMap st w in
  passState env versionsInfo0 n0 st' w'.
Proof.
  revert st w. induction productsMap as [|[key product] rest IH]; intros st w Hstate;
    simpl; [done|].
  unfold bind.
  pose proof (visitProduct_passState lastModified key product st w Hstate) as Hstep.
  destruct (visitProduct env lastModified key product st w) as [st1 w1].
  by apply IH.
Qed.

End Changed.

(** X4.  The flag [updateOSVersionsMapFromProductMap] returns tells whether
    it wrote.  With [false] the record is the one it was given and the clock
    has not been read.  With [true] the table of versions differs from the
    one it was given, the clock has been read, and [LastModified] is its most
    recent reading. *)
Theorem changed_flag_tells_whether_written (env : Env) (catalog : PlistValue)
    (versionsInfo : VersionsInfo) (lastModified : Time) (w : World) :
  let (out, w') := updateOSVersionsMapFromProductMap env catalog versionsInfo lastModified w in
  match out with
  | Return (versionsInfo', (true, _)) =>
      LatestVersions versionsInfo' <> LatestVersions versionsInfo
      /\ ticks w < ticks w'
      /\ LastModified versionsInfo' = Now env (pred (ticks w'))
  | Return (versionsInfo', (false, _)) => versionsInfo' = versionsInfo /\ ticks w' = ticks w
  | Panic _ => ticks w' = ticks w
  end.
Proof.
  unfold updateOSVersionsMapFromProductMap.
  destruct catalog as [| | | | | |productCatalogMap]; try done.
  destruct (assertMap (mapIndex productCatalogMap "Products")) as [productsMap|]; [|done].
  unfold bind, ret.
  pose proof (rangeProducts_passState env versionsInfo (ticks w) lastModified productsMap
                (versionsInfo, false) w) as Hpass.
  destruct (rangeProducts env lastModified productsMap (versionsInfo, false) w)
    as [[versionsInfo' changed] w'].
  destruct Hpass as [_ Hflag].
  { split; [apply versions_le_refl | done]. }
  simpl in Hflag. destruct changed; [|done].
  destruct Hflag as ((name & Habove) & Hticks & Hlast).
  split; [|done]. intros Heq. rewrite Heq in Habove. by apply above_irrefl in Habove.
Qed.

(** *** Invariants of the polling loop *)

Section Invariants.

Context (env : Env) (P : Tracker -> nat -> Prop).

Hypothesis cycle_keeps :
  forall url t w t' res w',
    P t (ticks w) ->
    updateOSVersionsMap env url t w = (Return (t', res), w') ->
    P t' (ticks w').

Lemma scrapeCatalogs_invariant catalogs t w t' w' :
  P t (ticks w) -> scrapeCatalogs env catalogs t w = (Return t', w') -> P t' (ticks w').
Proof.
  revert t w. induction catalogs as [|[name url] rest IH]; intros t w HP; simpl.
  - by intros [= <- <-].
  - unfold scrapeForMacVersions, bindGo, bind, ret.
    destruct (updateOSVersionsMap env (catalogURL ++ url) t w)
      as [[[t1 [updated err]]|msg] w1] eqn:Hupd; [|done].
    apply IH. by eapply cycle_keeps.
Qed.

Lemma selectLoop_invariant signals t w t' status w' :
  P t (ticks w) ->
  selectLoop env signals t w = (Return (t', status), w') -> P t' (ticks w').
Proof.
  revert t w. induction signals as [|[|] rest IH]; intros t w HP; simpl.
  - by intros [= <- _ <-].
  - by intros [= <- _ <-].
  - unfold bindGo, bind, ret.
    destruct (ScrapeForMacVersions env t w) as [[t1|msg] w1] eqn:Hscrape; [|done].
    apply IH. by eapply scrapeCatalogs_invariant.
Qed.

Lemma mainLoop_invariant signals t w t' status w' :
  P t (ticks w) ->
  mainLoop env signals t w = (Return (t', status), w') -> P t' (ticks w').
Proof.
  intros HP. unfold mainLoop, bindGo, bind, ret.
  destruct (ScrapeForMacVersions env t w) as [[t1|msg] w1] eqn:Hscrape; [|done].
  destruct (tickerPeriod (interval t1) <=? 0)%Z; [done|].
  apply selectLoop_invariant. simpl. by eapply scrapeCatalogs_invariant.
Qed.

End Invariants.

(** *** The branches of the table *)

Lemma branchOf_Some (v : Version) (name : string) :
  branchOf v = Some name ->
  name ∈ [versionNameElCapitan; versionNameSierra; versionNameHighSierra]
  /\ version.lt elCapitanMajor v.
Proof.
  unfold branchOf.
  destruct (LessThan v elCapitanMajor); [done|].
  destruct (GreaterThan v highSierraMajor) eqn:Hhs.
  { intros [= <-]. split; [set_solver|].
    apply GreaterThan_spec in Hhs. eapply lt_trans; [|exact Hhs]. unfold version.lt. simpl. lia. }
  destruct (GreaterThan v sierraMajor) eqn:Hs.
  { intros [= <-]. split; [set_solver|].
    apply GreaterThan_spec in Hs. eapply lt_trans; [|exact Hs]. unfold version.lt. simpl. lia. }
  destruct (GreaterThan v elCapitanMajor) eqn:Hec; [|done].
  intros [= <-]. split; [set_solver|]. by apply GreaterThan_spec.
Qed.

Section Filed.

Context (env : Env).

Lemma storeLatest_wellFiled name v1 st w :
  branchOf v1 = Some name ->
  wellFiled (LatestVersions (fst st)) ->
  wellFiled (LatestVersions (fst (fst (storeLatest env name v1 st w)))).
Proof.
  intros Hbranch Hfiled. destruct st as [versionsInfo changed].
  destruct (storeLatest_cases env name v1 versionsInfo changed w)
    as [(latest & _ & _ & ->) | [_ ->]]; simpl; [done|].
  intros other v. destruct (decide (name = other)) as [<-|Hne].
  - rewrite lookup_insert_eq. by intros [= <-].
  - rewrite lookup_insert_ne by done. apply Hfiled.
Qed.

Lemma trackVersion_wellFiled v1 st w :
  wellFiled (LatestVersions (fst st)) ->
  wellFiled (LatestVersions (fst (fst (trackVersion env v1 st w)))).
Proof.
  intros Hfiled. pose proof (trackVersion_cases env v1 st w) as Hcases.
  destruct (branchOf v1) as [name|] eqn:Hbranch; rewrite Hcases; [|done].
  by apply storeLatest_wellFiled.
Qed.

Lemma rangeProducts_wellFiled lastModified productsMap st w :
  wellFiled (LatestVersions (fst st)) ->
  wellFiled (LatestVersions (fst (fst (rangeProducts env lastModified productsMap st w)))).
Proof.
  revert st w. induction productsMap as [|[key product] rest IH]; intros st w Hfiled;
    simpl; [done|].
  unfold bind.
  assert (Hstep : wellFiled (LatestVersions
                    (fst (fst (visitProduct env lastModified key product st w))))).
  { rewrite visitProduct_extract.
    destruct (extractVersion env lastModified product w) as [[v1|] w1]; [|done].
    by apply trackVersion_wellFiled. }
  destruct (visitProduct env lastModified key product st w) as [st1 w1].
  by apply IH.
Qed.

Lemma updateOSVersionsMap_wellFiled url t w t' res w' :
  (forall versionsInfo,
      osVersionsMap t !! OSTypeMac = Some versionsInfo ->
      wellFiled (LatestVersions versionsInfo)) ->
  updateOSVersionsMap env url t w = (Return (t', res), w') ->
  forall versionsInfo',
    osVersionsMap t' !! OSTypeMac = Some versionsInfo' ->
    wellFiled (LatestVersions versionsInfo').
Proof.
  intros Hfiled. unfold updateOSVersionsMap.
  destruct (osVersionsMap t !! OSTypeMac) as [versionsInfo|] eqn:Hmac; [|done].
  specialize (Hfiled versionsInfo eq_refl).
  assert (Hsame : forall vi, osVersionsMap t !! OSTypeMac = Some vi ->
                             wellFiled (LatestVersions vi)).
  { intros vi Hvi. rewrite Hmac in Hvi. by injection Hvi as <-. }
  unfold bindGo, bind, ret.
  destruct (makeRequest env url (LastModified versionsInfo) w) as [[resp|err] w1];
    [|intros [= <- _ _]; exact Hsame].
  destruct (negb (StatusCode resp =? 200)%Z); [intros [= <- _ _]; exact Hsame|].
  destruct (parseCatalogResponse env resp w1) as [[productMap|err] w2];
    [|intros [= <- _ _]; exact Hsame].
  unfold updateOSVersionsMapFromProductMap.
  destruct productMap as [| | | | | |productCatalogMap]; try done.
  destruct (assertMap (mapIndex productCatalogMap "Products")) as [productsMap|].
  - unfold bind, ret.
    pose proof (rangeProducts_wellFiled (LastModified versionsInfo) productsMap
                  (versionsInfo, false) w2 Hfiled) as Hpass.
    destruct (rangeProducts env (LastModified versionsInfo) productsMap
                (versionsInfo, false) w2) as [[vi1 changed] w3].
    intros [= <- _ _] vi'. simpl. rewrite lookup_insert_eq. by intros [= <-].
  - intros [= <- _ _] vi'. simpl. rewrite lookup_insert_eq. by intros [= <-].
Qed.

End Filed.

(** X5.  If every version of the macOS table is stored under the branch it
    belongs to (as in the empty table [MakeTracker] builds), then this still
    holds after any run of [mainLoop]: the branches are among ElCapitan,
    Sierra and HighSierra, each version sits under the branch the loop body
    files it under, and none is 10.11.0 or older. *)
Theorem stored_versions_lie_in_their_branch (env : Env) (signals : list Signal)
    (t : Tracker) (w : World) :
  (forall versionsInfo,
      osVersionsMap t !! OSTypeMac = Some versionsInfo ->
      wellFiled (LatestVersions versionsInfo)) ->
  match fst (mainLoop env signals t w) with
  | Return (t', _) =>
      forall versionsInfo' name v,
        ReadVersions t' OSTypeMac = Some versionsInfo' ->
        LatestVersions versionsInfo' !! name = Some v ->
        branchOf v = Some name
        /\ name ∈ [versionNameElCapitan; versionNameSierra; versionNameHighSierra]
        /\ version.lt elCapitanMajor v
  | Panic _ => True
  end.
Proof.
  intros Hfiled.
  destruct (mainLoop env signals t w) as [[[t' status]|msg] w'] eqn:Hrun; simpl; [|done].
  intros versionsInfo' name v Hread Hlookup.
  assert (Hfiled' : forall vi, osVersionsMap t' !! OSTypeMac = Some vi ->
                               wellFiled (LatestVersions vi)).
  { eapply (mainLoop_invariant env
              (fun t0 _ => forall vi, osVersionsMap t0 !! OSTypeMac = Some vi ->
                                      wellFiled (LatestVersions vi))); [|exact Hfiled|exact Hrun].
    intros url t0 w0 t1 res w1 H0 Hstep. by eapply updateOSVersionsMap_wellFiled. }
  pose proof (Hfiled' versionsInfo' Hread name v Hlookup) as Hbranch.
  split; [done|]. by apply branchOf_Some.
Qed.

Lemma stored_versions_lie_in_their_branch_witness :
  match fst (mainLoop Demo.env [TimerTick; CtxDone] (MakeTracker 300) Demo.w0) with
  | Return (t', _) =>
      forall versionsInfo' name v,
        ReadVersions t' OSTypeMac = Some versionsInfo' ->
        LatestVersions versionsInfo' !! name = Some v ->
        branchOf v = Some name
        /\ name ∈ [versionNameElCapitan; versionNameSierra; versionNameHighSierra]
        /\ version.lt elCapitanMajor v
  | Panic _ => True
  end.
Proof.
  apply (stored_versions_lie_in_their_branch Demo.env [TimerTick; CtxDone]
           (MakeTracker 300) Demo.w0).
  intros versionsInfo Hmac.
  assert (Hmade : osVersionsMap (MakeTracker 300) !! OSTypeMac = Some Demo.emptyInfo)
    by reflexivity.
  rewrite Hmade in Hmac. injection Hmac as <-.
  intros name v Hlookup. simpl in Hlookup. by rewrite lookup_empty in Hlookup.
Defined.

(** *** What a cycle leaves alone *)

Lemma quiet_ticks {A} (c : M A) (w : World) : quiet c -> ticks (snd (c w)) = ticks w.
Proof. intros (a & es & _ & Hrun). by rewrite Hrun. Qed.

Section Frame.

Context (env : Env).

Lemma updateOSVersionsMap_frame url t w t' res w' :
  updateOSVersionsMap env url t w = (Return (t', res), w') ->
  interval t' = interval t
  /\ dom (osVersionsMap t') = dom (osVersionsMap t)
  /\ forall os, os <> OSTypeMac -> osVersionsMap t' !! os = osVersionsMap t !! os.
Proof.
  unfold updateOSVersionsMap.
  destruct (osVersionsMap t !! OSTypeMac) as [versionsInfo|] eqn:Hmac; [|done].
  unfold bindGo, bind, ret.
  destruct (makeRequest env url (LastModified versionsInfo) w) as [[resp|err] w1];
    [|by intros [= <- _ _]].
  destruct (negb (StatusCode resp =? 200)%Z); [by intros [= <- _ _]|].
  destruct (parseCatalogResponse env resp w1) as [[productMap|err] w2];
    [|by intros [= <- _ _]].
  destruct (updateOSVersionsMapFromProductMap env productMap versionsInfo
              (LastModified versionsInfo) w2) as [[[vi' res']|msg] w3]; [|done].
  intros [= <- _ _]. simpl. split; [done|]. split.
  - by apply dom_insert_lookup_L.
  - intros os Hne. by rewrite lookup_insert_ne.
Qed.

Lemma updateOSVersionsMapFromProductMap_error catalog versionsInfo lastModified w
    versionsInfo' changed err w' :
  updateOSVersionsMapFromProductMap env catalog versionsInfo lastModified w
  = (Return (versionsInfo', (changed, Some err)), w') ->
  versionsInfo' = versionsInfo /\ changed = false /\ w' = w.
Proof.
  unfold updateOSVersionsMapFromProductMap.
  destruct catalog as [| | | | | |productCatalogMap]; try done.
  destruct (assertMap (mapIndex productCatalogMap "Products")) as [productsMap|].
  - unfold bind, ret.
    by destruct (rangeProducts env lastModified productsMap (versionsInfo, false) w)
      as [[vi changed'] w1].
  - by intros [= <- <- _ <-].
Qed.

End Frame.

(** X6.  A run of [mainLoop] writes to the macOS entry of the table and to
    nothing else: the interval, the set of operating systems in the table,
    and what [ReadVersions] returns for every other operating system are as
    before. *)
Theorem mainLoop_writes_the_macOS_entry_only (env : Env) (signals : list Signal)
    (t : Tracker) (w : World) :
  match fst (mainLoop env signals t w) with
  | Return (t', _) =>
      interval t' = interval t
      /\ dom (osVersionsMap t') = dom (osVersionsMap t)
      /\ forall os, os <> OSTypeMac -> ReadVersions t' os = ReadVersions t os
  | Panic _ => True
  end.
Proof.
  destruct (mainLoop env signals t w) as [[[t' status]|msg] w'] eqn:Hrun; simpl; [|done].
  eapply (mainLoop_invariant env
            (fun t0 _ =>
               interval t0 = interval t
               /\ dom (osVersionsMap t0) = dom (osVersionsMap t)
               /\ forall os, os <> OSTypeMac -> ReadVersions t0 os = ReadVersions t os));
    [|done|exact Hrun].
  intros url t0 w0 t1 res w1 (Hinterval & Hdom & Hother) Hstep.
  apply updateOSVersionsMap_frame in Hstep as (Hinterval' & Hdom' & Hother').
  split; [congruence|]. split; [congruence|].
  intros os Hne. unfold ReadVersions in *. rewrite Hother' by done. by apply Hother.
Qed.

(** X7.  When [updateOSVersionsMap] returns an error (the catalog could not
    be requested, read or decoded, or has no [Products] dictionary), it
    returns [false] with it and has written nothing: the tracker is as it
    was and the clock has not been read.  And whatever [updateOSVersionsMap]
    returns for the catalog of [MacCatalogs], error or not,
    [ScrapeForMacVersions] returns normally with the tracker it left. *)
Theorem catalog_error_writes_nothing (env : Env) (url : string) (t : Tracker) (w : World) :
  (let (out, w') := updateOSVersionsMap env url t w in
   match out with
   | Return (t', (updated, Some _)) => t' = t /\ updated = false /\ ticks w' = ticks w
   | _ => True
   end)
  /\ (forall t' res w',
         updateOSVersionsMap env (catalogURL ++ snd (hd ("", "") MacCatalogs)) t w
         = (Return (t', res), w') ->
         ScrapeForMacVersions env t w = (Return t', w')).
Proof.
  split.
  - unfold updateOSVersionsMap.
    destruct (osVersionsMap t !! OSTypeMac) as [versionsInfo|] eqn:Hmac; [|done].
    unfold bindGo, bind, ret.
    pose proof (quiet_ticks _ w (quiet_makeRequest env url (LastModified versionsInfo)))
      as Hticks1.
    destruct (makeRequest env url (LastModified versionsInfo) w) as [[resp|err] w1];
      [|done].
    destruct (negb (StatusCode resp =? 200)%Z); [done|].
    pose proof (quiet_ticks _ w1 (quiet_parseCatalogResponse env resp)) as Hticks2.
    destruct (parseCatalogResponse env resp w1) as [[productMap|err] w2];
      [|simpl in *; split; [done|split; [done|congruence]]].
    destruct (updateOSVersionsMapFromProductMap env productMap versionsInfo
                (LastModified versionsInfo) w2) as [[[vi' [updated [err|]]]|msg] w3] eqn:Hupd;
      try done.
    apply updateOSVersionsMapFromProductMap_error in Hupd as (-> & -> & ->).
    simpl in *. rewrite insert_id by done.
    split; [by destruct t|]. split; [done | congruence].
  - intros t' [updated err] w' Hupd.
    unfold ScrapeForMacVersions. simpl. simpl in Hupd.
    unfold scrapeForMacVersions, bindGo, bind, ret. by rewrite Hupd.
Qed.

(** *** Panics *)

Section NoPanic.

Context (env : Env).

Hypothesis catalogs_are_dictionaries :
  forall body v, Unmarshal env body = inl v -> exists entries, v = PDict entries.

Lemma parseCatalogResponse_dictionary resp w v w' :
  parseCatalogResponse env resp w = (inl v, w') -> exists entries, v = PDict entries.
Proof.
  unfold parseCatalogResponse, bind, ioutil_ReadAll.
  destruct (Body resp) as [body [err|]]; [done|].
  destruct (Unmarshal env body) as [v0|err] eqn:Hdecode; [|done].
  intros [= <- _]. by eapply catalogs_are_dictionaries.
Qed.

Lemma updateOSVersionsMap_returns url t w :
  is_Some (osVersionsMap t !! OSTypeMac) ->
  exists t' res, fst (updateOSVersionsMap env url t w) = Return (t', res).
Proof.
  intros [versionsInfo Hmac]. unfold updateOSVersionsMap. rewrite Hmac.
  unfold bindGo, bind, ret.
  destruct (makeRequest env url (LastModified versionsInfo) w) as [[resp|err] w1];
    [|by eauto].
  destruct (negb (StatusCode resp =? 200)%Z); [by eauto|].
  destruct (parseCatalogResponse env resp w1) as [[productMap|err] w2] eqn:Hparse;
    [|by eauto].
  apply parseCatalogResponse_dictionary in Hparse as [entries ->].
  unfold updateOSVersionsMapFromProductMap.
  destruct (assertMap (mapIndex entries "Products")) as [productsMap|]; [|by eauto].
  unfold bind, ret.
  destruct (rangeProducts env (LastModified versionsInfo) productsMap
              (versionsInfo, false) w2) as [[vi changed] w3].
  by eauto.
Qed.

Lemma scrapeCatalogs_returns catalogs t w :
  is_Some (osVersionsMap t !! OSTypeMac) ->
  exists t', fst (scrapeCatalogs env catalogs t w) = Return t'.
Proof.
  revert t w. induction catalogs as [|[name url] rest IH]; intros t w Hmac; simpl.
  - by eauto.
  - unfold scrapeForMacVersions, bindGo, bind, ret.
    destruct (updateOSVersionsMap_returns (catalogURL ++ url) t w Hmac) as (t1 & res & Hret).
    destruct (updateOSVersionsMap env (catalogURL ++ url) t w) as [out w1] eqn:Hupd.
    simpl in Hret. subst out. destruct res as [updated err].
    apply IH. apply updateOSVersionsMap_mono in Hupd.
    destruct Hmac as [vi Hvi]. destruct (Hupd OSTypeMac vi Hvi) as (vi' & Hvi' & _).
    by eauto.
Qed.

Lemma selectLoop_returns signals t w :
  is_Some (osVersionsMap t !! OSTypeMac) ->
  exists t' status, fst (selectLoop env signals t w) = Return (t', status).
Proof.
  revert t w. induction signals as [|[|] rest IH]; intros t w Hmac; simpl;
    [by eauto|by eauto|].
  unfold bindGo, bind, ret.
  destruct (scrapeCatalogs_returns MacCatalogs t w Hmac) as (t1 & Hret).
  unfold ScrapeForMacVersions.
  destruct (scrapeCatalogs env MacCatalogs t w) as [out w1] eqn:Hscrape.
  simpl in Hret. subst out.
  apply IH. apply scrapeCatalogs_mono in Hscrape.
  destruct Hmac as [vi Hvi]. destruct (Hscrape OSTypeMac vi Hvi) as (vi' & Hvi' & _).
  by eauto.
Qed.

End NoPanic.



(** A decoded catalog that is an array makes the cycle panic. *)
Lemma array_catalog_panics (env : Env) (url : string) (w : World) (resp : Response)
    (body : string) (items : list PlistValue) :
  NewRequest env "GET" url = None ->
  Do env (conditionalGet env url zeroTime) = inl resp ->
  StatusCode resp = 200%Z ->
  Body resp = (body, None) ->
  Unmarshal env body = inl (PArray items) ->
  exists msg, fst (updateOSVersionsMap env url (MakeTracker 300) w) = Panic msg.
Proof.
  intros Hnew Hdo Hstatus Hbody Hdecode.
  unfold updateOSVersionsMap.
  replace (osVersionsMap (MakeTracker 300) !! OSTypeMac)
    with (Some {| LatestVersions := ∅; LastModified := zeroTime |}) by reflexivity.
  unfold bindGo, bind, makeRequest. simpl. rewrite Hnew.
  fold (conditionalGet env url zeroTime). rewrite Hdo, Hstatus. simpl.
  unfold parseCatalogResponse, bind, ioutil_ReadAll. rewrite Hbody, Hdecode. simpl.
  by eexists.
Qed.

(** *** The requests of a cycle *)

Lemma appends_ret {A} (P : Event -> Prop) (a : A) (w : World) : appends P 0 (ret a) w.
Proof. exists []. simpl. by rewrite app_nil_r. Qed.

Lemma appends_bind {A B} (P : Event -> Prop) (n1 n2 : nat) (c : M A) (k : A -> M B)
    (w : World) :
  appends P n1 c w ->
  (forall a w1, c w = (a, w1) -> appends P n2 (k a) w1) ->
  appends P (n1 + n2) (bind c k) w.
Proof.
  intros (es1 & Htrace1 & HP1 & Hlen1) Hk. unfold appends, bind.
  destruct (c w) as [a w1]. destruct (Hk a w1 eq_refl) as (es2 & Htrace2 & HP2 & Hlen2).
  exists (es1 ++ es2)%list. simpl in *. rewrite Htrace2, Htrace1, app_assoc.
  split; [done|]. split; [by apply Forall_app|]. rewrite length_app. lia.
Qed.

Lemma appends_weaken {A} (P : Event -> Prop) (n m : nat) (c : M A) (w : World) :
  n <= m -> appends P n c w -> appends P m c w.
Proof. intros Hnm (es & Htrace & HP & Hlen). exists es. split; [done|]. split; [done|lia]. Qed.

Lemma appends_emit {A} (P : Event -> Prop) (a : A) (e : Event) (w : World) :
  P e -> appends P 1 (fun w0 => (a, emit e w0)) w.
Proof. intros He. exists [e]. simpl. split; [done|]. split; [by constructor|done]. Qed.

Section Requests.

Context (env : Env) (lastModified : Time).

#[local] Abbreviation P := (cycleEvent env lastModified).

Lemma appends_makeRequest path w : appends P 1 (makeRequest env path lastModified) w.
Proof.
  unfold makeRequest. destruct (NewRequest env "GET" path).
  - eapply appends_weaken; [|apply appends_ret]. lia.
  - by apply appends_emit.
Qed.

Lemma appends_getLatestVersion distributionURL w :
  appends P 2 (getLatestVersion env distributionURL lastModified) w.
Proof.
  unfold getLatestVersion.
  apply (appends_bind P 1 1); [apply appends_makeRequest|].
  intros [resp|err] w1 _.
  2: { eapply appends_weaken; [|apply appends_ret]. lia. }
  destruct (negb (StatusCode resp =? 200)%Z) eqn:Hstatus.
  { eapply appends_weaken; [|apply appends_ret]. lia. }
  apply negb_false_iff, Z.eqb_eq in Hstatus.
  apply (appends_bind P 1 0); [by apply appends_emit|].
  intros [body [err|]] w2 _; [apply appends_ret|].
  repeat (match goal with |- appends _ _ (if ?b then _ else _) _ => destruct b end);
    apply appends_ret.
Qed.

Lemma appends_storeLatest name v1 st w : appends P 0 (storeLatest env name v1 st) w.
Proof.
  destruct st as [versionsInfo changed].
  destruct (storeLatest_cases env name v1 versionsInfo changed w)
    as [(latest & _ & _ & Hrun) | [_ Hrun]];
    exists []; rewrite Hrun; simpl; by rewrite app_nil_r.
Qed.

Lemma appends_trackVersion v1 st w : appends P 0 (trackVersion env v1 st) w.
Proof.
  pose proof (trackVersion_cases env v1 st w) as Hcases.
  destruct (branchOf v1) as [name|].
  - destruct (appends_storeLatest name v1 st w) as (es & Htrace & HP & Hlen).
    exists es. by rewrite Hcases.
  - exists []. rewrite Hcases. simpl. by rewrite app_nil_r.
Qed.

Lemma appends_visitProduct key product st w :
  appends P 2 (visitProduct env lastModified key product st) w.
Proof.
  unfold visitProduct.
  destruct (assertMap (Some product)) as [productInfo|];
    [|eapply appends_weaken; [|apply appends_ret]; lia].
  destruct (assertMap (mapIndex productInfo "Distributions")) as [distributions|];
    [|eapply appends_weaken; [|apply appends_ret]; lia].
  destruct (assertString (mapIndex distributions "English")) as [english|];
    [|eapply appends_weaken; [|apply appends_ret]; lia].
  apply (appends_bind P 2 0); [apply appends_getLatestVersion|].
  intros [ver [err|]] w1 _; [apply appends_ret|].
  destruct (String.eqb ver ""); [apply appends_ret|].
  destruct (NewVersion env ver); [apply appends_trackVersion | apply appends_ret].
Qed.

Lemma appends_rangeProducts productsMap st w :
  appends P (2 * length productsMap) (rangeProducts env lastModified productsMap st) w.
Proof.
  revert st w. induction productsMap as [|[key product] rest IH]; intros st w.
  - apply appends_ret.
  - cbn [rangeProducts length].
    eapply appends_weaken;
      [|apply (appends_bind P 2 (2 * length rest)); [apply appends_visitProduct|]].
    + lia.
    + intros st1 w1 _. apply IH.
Qed.

Lemma appends_updateOSVersionsMapFromProductMap catalog versionsInfo w :
  appends P (2 * productCount catalog)
    (updateOSVersionsMapFromProductMap env catalog versionsInfo lastModified) w.
Proof.
  unfold updateOSVersionsMapFromProductMap, productCount.
  destruct catalog as [| | | | | |entries]; try apply appends_ret.
  destruct (assertMap (mapIndex entries "Products")) as [productsMap|];
    [|apply appends_ret].
  eapply appends_weaken;
    [|apply (appends_bind P (2 * length productsMap) 0); [apply appends_rangeProducts|]].
  - lia.
  - intros [vi changed] w1 _. apply appends_ret.
Qed.

End Requests.


(** *** The period of the ticker *)

Lemma tickerPeriod_in_range (interval : Z) :
  (-9223372036 <= interval <= 9223372036)%Z ->
  tickerPeriod interval = (interval * 1000000000)%Z.
Proof.
  intros Hrange. unfold tickerPeriod, int64, time_Second.
  change (2 ^ 63)%Z with 9223372036854775808%Z.
  change (2 ^ 64)%Z with 18446744073709551616%Z.
  rewrite Z.mod_small by lia. lia.
Qed.

Lemma tickerPeriod_wrapped (interval : Z) :
  (9223372037 <= interval <= 18446744073)%Z ->
  tickerPeriod interval = (interval * 1000000000 - 18446744073709551616)%Z.
Proof.
  intros Hrange. unfold tickerPeriod, int64, time_Second.
  change (2 ^ 63)%Z with 9223372036854775808%Z.
  change (2 ^ 64)%Z with 18446744073709551616%Z.
  replace (interval * 1000000000 + 9223372036854775808)%Z
    with ((interval * 1000000000 + 9223372036854775808 - 18446744073709551616)
          + 1 * 18446744073709551616)%Z by lia.
  rewrite Z_mod_plus_full, Z.mod_small by lia. lia.
Qed.

(** X10.  For an interval of 1 to 9223372036 seconds the multiplication by
    [time.Second] does not overflow: [mainLoop] creates its ticker with a
    period of exactly that many seconds, once the first cycle has returned. *)
Theorem ticker_period_is_the_interval (env : Env) (signals : list Signal) (t : Tracker)
    (w : World) (t1 : Tracker) (w1 : World) :
  (1 <= interval t <= 9223372036)%Z ->
  ScrapeForMacVersions env t w = (Return t1, w1) ->
  mainLoop env signals t w
  = selectLoop env signals t1 (emit (EvNewTicker (interval t * 1000000000)) w1).
Proof.
  intros Hrange Hscrape. unfold mainLoop, bindGo, bind, ret. rewrite Hscrape.
  rewrite (ScrapeForMacVersions_interval env _ _ _ _ Hscrape).
  rewrite tickerPeriod_in_range by lia.
  destruct (interval t * 1000000000 <=? 0)%Z eqn:Hle; [|done].
  apply Z.leb_le in Hle. lia.
Qed.

Lemma ticker_period_is_the_interval_witness :
  let t := MakeTracker 300 in
  let first := ScrapeForMacVersions Demo.env t Demo.w0 in
  exists t1,
    fst first = Return t1
    /\ mainLoop Demo.env [CtxDone] t Demo.w0
       = selectLoop Demo.env [CtxDone] t1 (emit (EvNewTicker 300000000000) (snd first)).
Proof.
  cbv zeta.
  destruct (ScrapeForMacVersions Demo.env (MakeTracker 300) Demo.w0) as [out w1] eqn:Hrun.
  assert (Hout : exists t1, out = Return t1).
  { assert (Hfst : fst (ScrapeForMacVersions Demo.env (MakeTracker 300) Demo.w0) = out)
      by (by rewrite Hrun).
    vm_compute in Hfst. rewrite <- Hfst. by eexists. }
  destruct Hout as [t1 ->]. exists t1. split; [done|].
  apply (ticker_period_is_the_interval Demo.env [CtxDone] (MakeTracker 300) Demo.w0 t1 w1).
  - simpl. lia.
  - exact Hrun.
Defined.

(** X11.  For an interval of 0 seconds or less (down to -9223372036), and
    for one of 9223372037 to 18446744073 seconds, where the multiplication
    wraps around to a negative duration, [mainLoop] panics when it creates
    the ticker: it has run the first cycle and runs no other. *)
Theorem ticker_panics_outside_the_range (env : Env) (signals : list Signal) (t : Tracker)
    (w : World) :
  (-9223372036 <= interval t <= 0)%Z \/ (9223372037 <= interval t <= 18446744073)%Z ->
  mainLoop env signals t w
  = (let+ t1 := ScrapeForMacVersions env t in
     ret (Panic "non-positive interval for NewTicker")) w.
Proof.
  intros Hrange. unfold mainLoop, bindGo, bind, ret.
  destruct (ScrapeForMacVersions env t w) as [[t1|msg] w1] eqn:Hscrape; [|done].
  rewrite (ScrapeForMacVersions_interval env _ _ _ _ Hscrape).
  destruct (tickerPeriod (interval t) <=? 0)%Z eqn:Hle; [done|].
  apply Z.leb_gt in Hle. destruct Hrange as [Hrange|Hrange].
  - rewrite tickerPeriod_in_range in Hle by lia. lia.
  - rewrite tickerPeriod_wrapped in Hle by lia. lia.
Qed.

Lemma ticker_panics_outside_the_range_witness :
  mainLoop Demo.env [TimerTick; CtxDone] (MakeTracker 9223372037) Demo.w0
  = (let+ t1 := ScrapeForMacVersions Demo.env (MakeTracker 9223372037) in
     ret (Panic "non-positive interval for NewTicker")) Demo.w0.
Proof.
  apply (ticker_panics_outside_the_range Demo.env [TimerTick; CtxDone]
           (MakeTracker 9223372037) Demo.w0).
  right. simpl. lia.
Defined.

(** *** The older pass *)

Section LegacyPass.

Context (env : Env).

Lemma legacy_getLatestVersion_ticks url lastModified w :
  ticks (snd (Legacy.getLatestVersion env url lastModified w)) = ticks w.
Proof.
  unfold Legacy.getLatestVersion, bind.
  pose proof (quiet_ticks _ w (quiet_makeRequest env url lastModified)) as Hticks.
  destruct (makeRequest env url lastModified w) as [[resp|err] w1]; [|done].
  destruct (negb (StatusCode resp =? 200)%Z); [done|].
  unfold ioutil_ReadAll. destruct (Body resp) as [body [err|]]; [done|].
  by destruct (negb _).
Qed.

Lemma legacy_collect_ticks product lastModified latestVersions w :
  ticks (snd (Legacy.collect env product lastModified latestVersions w)) = ticks w.
Proof.
  unfold Legacy.collect. destruct (Legacy.distributionOf product) as [url|]; [|done].
  unfold bind.
  pose proof (legacy_getLatestVersion_ticks url lastModified w) as Hticks.
  destruct (Legacy.getLatestVersion env url lastModified w) as [[ver [err|]] w1]; [done|].
  by destruct (String.eqb ver "").
Qed.

Lemma legacy_record_grows latestVersions st w k :
  is_Some (Legacy.LatestVersions (fst st) !! k) ->
  is_Some (Legacy.LatestVersions (fst (fst (Legacy.record env latestVersions st w))) !! k).
Proof.
  revert st w. induction latestVersions as [|v rest IH]; intros st w Hk; simpl; [done|].
  destruct (String.eqb v ""); [by apply IH|].
  unfold bind, time_Now. apply IH. simpl.
  destruct (decide (v = k)) as [->|Hne]; [rewrite lookup_insert_eq; by eexists|].
  by rewrite lookup_insert_ne.
Qed.

Lemma legacy_record_set latestVersions st w :
  snd st = true -> snd (fst (Legacy.record env latestVersions st w)) = true.
Proof.
  revert st w. induction latestVersions as [|v rest IH]; intros st w Hset; simpl; [done|].
  destruct (String.eqb v ""); [by apply IH|]. unfold bind, time_Now. by apply IH.
Qed.

Lemma legacy_record_unset latestVersions st w :
  snd (fst (Legacy.record env latestVersions st w)) = false ->
  Legacy.record env latestVersions st w = (st, w).
Proof.
  revert st w. induction latestVersions as [|v rest IH]; intros st w; simpl; [done|].
  destruct (String.eqb v ""); [apply IH|].
  unfold bind, time_Now. intros Hunset.
  rewrite legacy_record_set in Hunset; done.
Qed.

Lemma legacy_record_ticks latestVersions st w :
  ticks w <= ticks (snd (Legacy.record env latestVersions st w)).
Proof.
  revert st w. induction latestVersions as [|v rest IH]; intros st w; simpl; [done|].
  destruct (String.eqb v ""); [apply IH|].
  unfold bind, time_Now.
  match goal with |- _ <= ticks (snd (Legacy.record env rest ?s ?x)) =>
    specialize (IH s x) end.
  simpl in IH. lia.
Qed.

End LegacyPass.

(** X12.  The older [updateOSVersionsMapFromProductMap] requests the four
    distributions first and writes afterwards.  When it returns an error,
    from whichever of the four, it has written nothing: the record is as it
    was, the flag is [false] and the clock has not been read.  When it
    returns without error, no string has left the table, and a flag of
    [false] again means that nothing was written.  It panics on no catalog
    but the nil one. *)
Theorem legacy_pass_writes_after_all_requests (env : Env) (productMap : Legacy.ProductMap)
    (versionsInfo : Legacy.VersionsInfo) (lastModified : Time) (w : World) :
  let (out, w') :=
    Legacy.updateOSVersionsMapFromProductMap env (Some productMap) versionsInfo lastModified w in
  match out with
  | Return (versionsInfo', (changed, Some _)) =>
      versionsInfo' = versionsInfo /\ changed = false /\ ticks w' = ticks w
  | Return (versionsInfo', (changed, None)) =>
      (forall k, is_Some (Legacy.LatestVersions versionsInfo !! k) ->
                 is_Some (Legacy.LatestVersions versionsInfo' !! k))
      /\ (changed = false -> versionsInfo' = versionsInfo /\ ticks w' = ticks w)
      /\ ticks w <= ticks w'
  | Panic _ => False
  end.
Proof.
  unfold Legacy.updateOSVersionsMapFromProductMap, bind, ret.
  pose proof (legacy_collect_ticks env (Legacy.HighSierra productMap) lastModified [] w) as H1.
  destruct (Legacy.collect env (Legacy.HighSierra productMap) lastModified [] w)
    as [[l1|err] w1]; [|done].
  pose proof (legacy_collect_ticks env (Legacy.Sierra productMap) lastModified l1 w1) as H2.
  destruct (Legacy.collect env (Legacy.Sierra productMap) lastModified l1 w1)
    as [[l2|err] w2]; [|simpl in *; split; [done|split; [done|congruence]]].
  pose proof (legacy_collect_ticks env (Legacy.ElCapitan productMap) lastModified l2 w2) as H3.
  destruct (Legacy.collect env (Legacy.ElCapitan productMap) lastModified l2 w2)
    as [[l3|err] w3]; [|simpl in *; split; [done|split; [done|congruence]]].
  pose proof (legacy_collect_ticks env (Legacy.Yosemite productMap) lastModified l3 w3) as H4.
  destruct (Legacy.collect env (Legacy.Yosemite productMap) lastModified l3 w3)
    as [[l4|err] w4]; [|simpl in *; split; [done|split; [done|congruence]]].
  pose proof (legacy_record_grows env l4 (versionsInfo, false) w4) as Hgrow.
  pose proof (legacy_record_unset env l4 (versionsInfo, false) w4) as Hunset.
  pose proof (legacy_record_ticks env l4 (versionsInfo, false) w4) as Hticks.
  destruct (Legacy.record env l4 (versionsInfo, false) w4) as [[vi' changed] w5].
  simpl in *. split; [exact Hgrow|]. split; [|lia].
  intros ->. specialize (Hunset eq_refl). injection Hunset as -> ->.
  split; [done | congruence].
Qed.

(** *** A pass made twice *)

Section Settled.

Context (env : Env).

Lemma trackAll_settled vs st w :
  (forall v name, v ∈ vs -> branchOf v = Some name ->
     exists s, LatestVersions (fst st) !! name = Some s /\ version.le v s) ->
  trackAll env vs st w = (st, w).
Proof.
  induction vs as [|v rest IH]; intros Hsettled; simpl; [done|].
  unfold bind.
  assert (Hstep : trackVersion env v st w = (st, w)).
  { pose proof (trackVersion_cases env v st w) as Hcases.
    destruct (branchOf v) as [name|] eqn:Hbranch; [|done].
    destruct (Hsettled v name) as (s & Hs & Hle); [by left|done|].
    rewrite Hcases. destruct st as [versionsInfo changed].
    eapply storeLatest_keep; [exact Hs|].
    unfold version.le in Hle. by rewrite LessThan_GreaterThan in Hle. }
  rewrite Hstep. apply IH. intros v' name Hv'. apply Hsettled. by right.
Qed.

Lemma trackAll_settles vs st w v name :
  v ∈ vs -> branchOf v = Some name ->
  exists s,
    LatestVersions (fst (fst (trackAll env vs st w))) !! name = Some s /\ version.le v s.
Proof.
  intros Hv Hbranch. rewrite trackAll_lookup.
  pose proof (greatest_foldl (LatestVersions (fst st) !! name) (filed name vs)) as Hgreatest.
  assert (Hin : v ∈ (option_list (LatestVersions (fst st) !! name) ++ filed name vs)%list).
  { apply elem_of_app. right. unfold filed. by apply list_elem_of_filter. }
  destruct (foldl merged (LatestVersions (fst st) !! name) (filed name vs)) as [x|];
    simpl in Hgreatest.
  - exists x. split; [done|]. by apply Hgreatest.
  - rewrite Hgreatest in Hin. by apply elem_of_nil in Hin.
Qed.

Lemma rangeProducts_twice lastModified productsMap st w w' changed :
  let st1 := fst (rangeProducts env lastModified productsMap st w) in
  let again := rangeProducts env lastModified productsMap (fst st1, changed) w' in
  fst again = (fst st1, changed) /\ ticks (snd again) = ticks w'.
Proof.
  cbv zeta.
  destruct (rangeProducts_trackAll env lastModified productsMap st w w eq_refl) as [-> _].
  destruct (rangeProducts_trackAll env lastModified productsMap
              (fst (fst (trackAll env (branchVersions env lastModified productsMap) st w)),
               changed) w' w' eq_refl) as [-> ->].
  rewrite trackAll_settled; [done|].
  intros v name Hv Hbranch. simpl. by apply trackAll_settles.
Qed.

End Settled.

(** X13.  A pass made again over the same catalog, with the same
    [lastModified] and the network answering as before, finds nothing to
    write: started on the record the first pass left, from any world, it
    returns that record with [(false, nil)] and does not read the clock. *)
Theorem second_pass_finds_nothing_to_write (env : Env) (catalog : PlistValue)
    (versionsInfo : VersionsInfo) (lastModified : Time) (w w' : World) :
  match fst (updateOSVersionsMapFromProductMap env catalog versionsInfo lastModified w) with
  | Return (versionsInfo1, (_, None)) =>
      let again :=
        updateOSVersionsMapFromProductMap env catalog versionsInfo1 lastModified w' in
      fst again = Return (versionsInfo1, (false, None)) /\ ticks (snd again) = ticks w'
  | _ => True
  end.
Proof.
  unfold updateOSVersionsMapFromProductMap.
  destruct catalog as [| | | | | |entries]; try done.
  destruct (assertMap (mapIndex entries "Products")) as [productsMap|]; [|done].
  unfold bind, ret.
  pose proof (rangeProducts_twice env lastModified productsMap (versionsInfo, false)
                w w' false) as Htwice.
  cbv zeta in Htwice.
  destruct (rangeProducts env lastModified productsMap (versionsInfo, false) w)
    as [[versionsInfo1 changed] w1].
  simpl in *.
  destruct (rangeProducts env lastModified productsMap (versionsInfo1, false) w')
    as [[versionsInfo2 changed2] w2].
  simpl in *. destruct Htwice as [[= -> ->] Hticks]. done.
Qed.

(** *** The time of the last change *)

Section Clock.

Context (env : Env) (lastModified0 : Time).

Hypothesis clock_is_monotone : forall n m, n <= m -> (Now env n <= Now env m)%Z.

Lemma updateOSVersionsMap_lastModified url t w t' res w' :
  (forall versionsInfo,
      osVersionsMap t !! OSTypeMac = Some versionsInfo ->
      (lastModified0 <= LastModified versionsInfo <= Now env (ticks w))%Z) ->
  updateOSVersionsMap env url t w = (Return (t', res), w') ->
  forall versionsInfo',
    osVersionsMap t' !! OSTypeMac = Some versionsInfo' ->
    (lastModified0 <= LastModified versionsInfo' <= Now env (ticks w'))%Z.
Proof.
  intros Hbounds. unfold updateOSVersionsMap.
  destruct (osVersionsMap t !! OSTypeMac) as [versionsInfo|] eqn:Hmac; [|done].
  specialize (Hbounds versionsInfo eq_refl).
  unfold bindGo, bind, ret.
  pose proof (quiet_ticks _ w (quiet_makeRequest env url (LastModified versionsInfo)))
    as Hticks1.
  destruct (makeRequest env url (LastModified versionsInfo) w) as [[resp|err] w1];
    simpl in Hticks1.
  2: { intros [= <- _ <-] vi'. rewrite Hmac, Hticks1. by intros [= <-]. }
  destruct (negb (StatusCode resp =? 200)%Z).
  { intros [= <- _ <-] vi'. rewrite Hmac, Hticks1. by intros [= <-]. }
  pose proof (quiet_ticks _ w1 (quiet_parseCatalogResponse env resp)) as Hticks2.
  destruct (parseCatalogResponse env resp w1) as [[productMap|err] w2]; simpl in Hticks2.
  2: { intros [= <- _ <-] vi'. rewrite Hmac, Hticks2, Hticks1. by intros [= <-]. }
  unfold updateOSVersionsMapFromProductMap.
  destruct productMap as [| | | | | |entries]; try done.
  destruct (assertMap (mapIndex entries "Products")) as [productsMap|].
  - unfold bind, ret.
    pose proof (rangeProducts_passState env versionsInfo (ticks w2)
                  (LastModified versionsInfo) productsMap (versionsInfo, false) w2) as Hpass.
    destruct (rangeProducts env (LastModified versionsInfo) productsMap
                (versionsInfo, false) w2) as [[vi1 changed] w3].
    destruct Hpass as [_ Hflag]; [split; [apply versions_le_refl | done]|].
    intros [= <- _ <-] vi'. simpl. rewrite lookup_insert_eq. intros [= <-].
    simpl in Hflag. destruct changed.
    + destruct Hflag as (_ & Hlt & ->).
      assert (Now env (ticks w) <= Now env (pred (ticks w3)))%Z
        by (apply clock_is_monotone; lia).
      assert (Now env (pred (ticks w3)) <= Now env (ticks w3))%Z
        by (apply clock_is_monotone; lia).
      lia.
    + destruct Hflag as [-> ->]. rewrite Hticks2, Hticks1. done.
  - intros [= <- _ <-] vi'. simpl. rewrite lookup_insert_eq. intros [= <-].
    rewrite Hticks2, Hticks1. done.
Qed.

End Clock.

(** X14.  If the clock never goes back and the [LastModified] of the macOS
    entry is not ahead of it, then over any run of [mainLoop] that
    [LastModified] does not decrease, and it stays not ahead of the clock. *)
Theorem lastModified_never_decreases (env : Env) (signals : list Signal) (t : Tracker)
    (w : World) :
  (forall n m, n <= m -> (Now env n <= Now env m)%Z) ->
  (lastModifiedOf t <= Now env (ticks w))%Z ->
  let (out, w') := mainLoop env signals t w in
  match out with
  | Return (t', _) =>
      is_Some (ReadVersions t OSTypeMac) ->
      (lastModifiedOf t <= lastModifiedOf t' <= Now env (ticks w'))%Z
  | Panic _ => True
  end.
Proof.
  intros Hclock Hstart.
  destruct (mainLoop env signals t w) as [[[t' status]|msg] w'] eqn:Hrun; [|done].
  intros [versionsInfo Hmac]. unfold ReadVersions in Hmac.
  assert (Hend : forall vi', osVersionsMap t' !! OSTypeMac = Some vi' ->
                   (lastModifiedOf t <= LastModified vi' <= Now env (ticks w'))%Z).
  { eapply (mainLoop_invariant env
              (fun t0 n => forall vi, osVersionsMap t0 !! OSTypeMac = Some vi ->
                             (lastModifiedOf t <= LastModified vi <= Now env n)%Z));
      [| |exact Hrun].
    - intros url t0 w0 t1 res w1 H0 Hstep.
      by eapply updateOSVersionsMap_lastModified.
    - intros vi Hvi. unfold lastModifiedOf in *. rewrite Hvi in *. lia. }
  apply mainLoop_mono in Hrun.
  destruct (Hrun OSTypeMac versionsInfo Hmac) as (vi' & Hvi' & _).
  specialize (Hend vi' Hvi'). unfold lastModifiedOf at 2 3. by rewrite Hvi'.
Qed.

Lemma lastModified_never_decreases_witness :
  let t := MakeTracker 300 in
  let (out, w') := mainLoop Demo.env [TimerTick; CtxDone] t Demo.w0 in
  match out with
  | Return (t', _) =>
      is_Some (ReadVersions t OSTypeMac) ->
      (lastModifiedOf t <= lastModifiedOf t' <= Now Demo.env (ticks w'))%Z
  | Panic _ => True
  end.
Proof.
  apply (lastModified_never_decreases Demo.env [TimerTick; CtxDone] (MakeTracker 300) Demo.w0).
  - intros n m Hnm. simpl. lia.
  - vm_compute. discriminate.
Defined.

(** *** The order of the visit and the flag *)

(** X15.  Go leaves the order in which [range] visits the products
    unspecified; the flag [updateOSVersionsMapFromProductMap] returns does
    not depend on it, nor does its error, nor the table of versions it
    leaves. *)
Theorem changed_flag_is_independent_of_order (env : Env)
    (entries entries' productsMap productsMap' : list (string * PlistValue))
    (versionsInfo : VersionsInfo) (lastModified : Time) (w w' : World) :
  mapIndex entries "Products" = Some (PDict productsMap) ->
  mapIndex entries' "Products" = Some (PDict productsMap') ->
  productsMap ≡ₚ productsMap' ->
  exists versionsInfo1 versionsInfo2 changed,
    fst (updateOSVersionsMapFromProductMap env (PDict entries) versionsInfo lastModified w)
    = Return (versionsInfo1, (changed, None))
    /\ fst (updateOSVersionsMapFromProductMap env (PDict entries') versionsInfo lastModified w')
       = Return (versionsInfo2, (changed, None))
    /\ LatestVersions versionsInfo1 = LatestVersions versionsInfo2.
Proof.
  intros Hproducts Hproducts' Hperm.
  unfold updateOSVersionsMapFromProductMap. rewrite Hproducts, Hproducts'. simpl.
  unfold bind, ret.
  pose proof (rangeProducts_passState env versionsInfo (ticks w) lastModified productsMap
                (versionsInfo, false) w) as Hpass.
  pose proof (rangeProducts_passState env versionsInfo (ticks w') lastModified productsMap'
                (versionsInfo, false) w') as Hpass'.
  assert (Hsame :
    LatestVersions (fst (fst (rangeProducts env lastModified productsMap (versionsInfo, false) w)))
    = LatestVersions
        (fst (fst (rangeProducts env lastModified productsMap' (versionsInfo, false) w')))).
  { destruct (rangeProducts_trackAll env lastModified productsMap (versionsInfo, false)
                w w eq_refl) as [-> _].
    destruct (rangeProducts_trackAll env lastModified productsMap' (versionsInfo, false)
                w' w' eq_refl) as [-> _].
    apply trackAll_perm. unfold branchVersions. by rewrite Hperm. }
  destruct (rangeProducts env lastModified productsMap (versionsInfo, false) w)
    as [[vi1 changed1] w1].
  destruct (rangeProducts env lastModified productsMap' (versionsInfo, false) w')
    as [[vi2 changed2] w2].
  simpl in *.
  destruct Hpass as [_ Hflag]; [split; [apply versions_le_refl | done]|].
  destruct Hpass' as [_ Hflag']; [split; [apply versions_le_refl | done]|].
  simpl in *. exists vi1, vi2, changed1. split; [done|]. split; [|done].
  destruct changed1, changed2; try done.
  - destruct Hflag as ((name & Habove) & _). destruct Hflag' as [-> _].
    rewrite Hsame in Habove. by apply above_irrefl in Habove.
  - destruct Hflag' as ((name & Habove) & _). destruct Hflag as [-> _].
    rewrite <- Hsame in Habove. by apply above_irrefl in Habove.
Qed.

Lemma changed_flag_is_independent_of_order_witness :
  let hs := ("091-39211", Demo.product Demo.hsURL) in
  let sierra := ("091-22860", Demo.product Demo.sierraURL) in
  let yosemite := ("031-30888", Demo.product Demo.yosemiteURL) in
  exists versionsInfo1 versionsInfo2 changed,
    fst (updateOSVersionsMapFromProductMap Demo.env (Demo.catalog [hs; sierra; yosemite])
           Demo.emptyInfo zeroTime Demo.w0)
    = Return (versionsInfo1, (changed, None))
    /\ fst (updateOSVersionsMapFromProductMap Demo.env (Demo.catalog [sierra; hs; yosemite])
              Demo.emptyInfo zeroTime Demo.w0)
       = Return (versionsInfo2, (changed, None))
    /\ LatestVersions versionsInfo1 = LatestVersions versionsInfo2.
Proof.
  apply (changed_flag_is_independent_of_order Demo.env _ _
           [("091-39211", Demo.product Demo.hsURL); ("091-22860", Demo.product Demo.sierraURL);
            ("031-30888", Demo.product Demo.yosemiteURL)]
           [("091-22860", Demo.product Demo.sierraURL); ("091-39211", Demo.product Demo.hsURL);
            ("031-30888", Demo.product Demo.yosemiteURL)]).
  - reflexivity.
  - reflexivity.
  - apply perm_swap.
Defined.

(** *** The two revisions of [getLatestVersion] *)

(** X16.  The tests on the title that the current [getLatestVersion] adds to
    the older one only ever set a document aside: the two send the same
    request and do the same read; and the current one returns either what
    the older one returns or the empty string and no error. *)
Theorem title_tests_only_set_aside (env : Env) (url : string) (lastModified : Time)
    (w : World) :
  let current := getLatestVersion env url lastModified w in
  let older := Legacy.getLatestVersion env url lastModified w in
  snd current = snd older
  /\ (fst current = fst older \/ fst current = ("", None)).
Proof.
  cbv zeta. unfold getLatestVersion, Legacy.getLatestVersion, bind.
  destruct (makeRequest env url lastModified w) as [[resp|err] w1]; [|by split; [|left]].
  destruct (negb (StatusCode resp =? 200)%Z); [by split; [|left]|].
  unfold ioutil_ReadAll. destruct (Body resp) as [body [err|]]; [by split; [|left]|].
  simpl.
  destruct (negb (length (TitleRegex env body) =? 4)%nat).
  { split; [|by right]. by destruct (negb (length (VersionRegex env body) =? 3)%nat). }
  destruct (1 <? length (DiscardRegex env (nth 3 (TitleRegex env body) "")))%nat.
  { split; [|by right]. by destruct (negb (length (VersionRegex env body) =? 3)%nat). }
  destruct (negb (length (VersionRegex env body) =? 3)%nat); by split; [|left].
Qed.
